(** * HPACKCodec: the adapter between header lists and the HPACK engine

    A shallow embedding of [proxygen/lib/http/codec/compress/HPACKCodec.cpp]:
    the constructor (role assignment), [HPACKCodec::encode] and
    [HPACKCodec::decode], together with the properties the specification
    states about them.

    Conventions.
    - [uint32_t] and [size_t] values are integers in [Z]; every operation
      that can leave the range is followed by its reduction ([to_uint32],
      [size_t_add]).
    - A [std::string] is a [string]; [size()] is its length.
    - The strings of the caller's header list are reached through pointers
      ([const std::string*]); they live in a store of character buffers
      ([Mem]) which [encode] threads, so that what [encode] writes is
      visible.  Reading through a pointer that is at none of the
      caller's strings is a fault: the call has no outcome.
    - What a copy of a [std::string] does with the buffer of its source
      depends on the library: the copy gets a buffer of its own, or shares
      the one of the source.  [encode] is modelled for both
      ([CopyPolicy]).
    - The HPACK encoder and decoder are collaborators whose code is not
      part of this unit; they are the operations of the class
      [HPACKEngine]. *)

From Stdlib Require Import ZArith List String Ascii Strings.Byte Bool Lia PeanoNat.
Import ListNotations.

Local Open Scope Z_scope.

(* ------------------------------------------------------------------ *)
(** ** Machine integers *)

(** Conversion to [uint32_t]. *)
Definition to_uint32 (z : Z) : Z := z mod 2 ^ 32.

(** Addition of two [size_t] values (64 bits; a narrower [size_t] gives
    the same counters, see [counter_update]). *)
Definition size_t_add (a b : Z) : Z := (a + b) mod 2 ^ 64.

(** [++] on a [uint32_t] loop counter. *)
Definition uint32_incr (i : Z) : Z := to_uint32 (i + 1).

(* ------------------------------------------------------------------ *)
(** ** Strings *)

(** [std::string::size]. *)
Definition size (s : string) : Z := Z.of_nat (String.length s).

(** The character map of [folly::toLowerAscii]: the 26 upper-case ASCII
    letters move to their lower-case forms, every other byte stays. *)
Definition toLowerAsciiChar (c : ascii) : ascii :=
  let n := N_of_ascii c in
  if ((65 <=? n) && (n <=? 90))%N then ascii_of_N (n + 32) else c.

(** [folly::toLowerAscii(str, length)] applied to a whole string
    ([length] is the string's size at the one place it is called). *)
Fixpoint toLowerAscii (s : string) : string :=
  match s with
  | EmptyString => EmptyString
  | String c r => String (toLowerAsciiChar c) (toLowerAscii r)
  end.

(* ------------------------------------------------------------------ *)
(** ** The store of character buffers *)

(** Address of the character buffer of a [std::string]. *)
Definition addr := nat.

(** The buffers alive at some point, by address.  A string object is
    identified with the buffer it uses: two objects that share a buffer
    have the same address. *)
Definition Mem := list string.

(** The text at an address of the store.  It is used where the address
    is known to be one of the store; elsewhere it is the empty string. *)
Definition load (m : Mem) (p : addr) : string := nth p m EmptyString.

(** A new buffer holding [s]. *)
Definition alloc (m : Mem) (s : string) : Mem * addr :=
  (m ++ [s], List.length m).

(** Overwriting the characters of the buffer at [p]. *)
Fixpoint store (m : Mem) (p : addr) (s : string) : Mem :=
  match m, p with
  | [], _ => []
  | _ :: r, O => s :: r
  | x :: r, S p' => x :: store r p' s
  end.

(** What the copy constructor of [std::string] does.  [Owning]: the copy
    has a buffer of its own, filled with the text of the source (required
    since C++11).  [Sharing]: the copy uses the buffer of the source
    (reference-counted strings, which take a private buffer only on a
    non-const access; [data()] is a const access). *)
Inductive CopyPolicy := Owning | Sharing.

(** The copy of the string at [p], which is in the store. *)
Definition copy_string (policy : CopyPolicy) (m : Mem) (p : addr)
  : Mem * addr :=
  match policy with
  | Owning => alloc m (load m p)
  | Sharing => (m, p)
  end.

(* ------------------------------------------------------------------ *)
(** ** Data types *)

Inductive TransportDirection := DOWNSTREAM | UPSTREAM.

Module HPACK.
Inductive MessageType := REQ | RESP.
End HPACK.

(** [HPACKHeader]: a name and a value, held by value. *)
Record HPACKHeader := mkHPACKHeader { name : string; value : string }.

Module compress.

(** [compress::Header]: pointers to a name and a value owned by the
    caller. *)
Record Header := mkHeader { name : addr; value : addr }.

(** Modelled from the spec: [compress::HeaderPiece], declared in a header
    file that is not part of this unit.  A piece is built from the
    characters it points to, their length, the ownership flag and the
    multi-valued flag.  [str] is the text the piece points to at the
    time it is built. *)
Record HeaderPiece := mkHeaderPiece {
  str : string;
  len : Z;
  owner : bool;
  multiValued : bool
}.

Definition HeaderPieceList := list HeaderPiece.

End compress.

(** [folly::IOBuf]: a chain of byte segments. *)
Definition IOBuf := list (list byte).

(** [IOBuf::computeChainDataLength]. *)
Definition computeChainDataLength (b : IOBuf) : Z :=
  fold_right (fun seg acc => Z.of_nat (List.length seg) + acc) 0 b.

(** [folly::io::Cursor]: the bytes that remain to be read. *)
Definition Cursor := list byte.

(** Modelled from the spec: the size accounting tuple [HTTPHeaderSize]
    (its declaration is not part of this unit). *)
Record HTTPHeaderSize := mkSize { compressed : Z; uncompressed : Z }.

(** Modelled from the spec: the two kinds of decode error the adapter
    returns. *)
Inductive HeaderDecodeError := BAD_ENCODING | HEADERS_TOO_LARGE.

(** The success value of [decode]: the piece list and the number of
    bytes consumed. *)
Record HeaderDecodeResult := mkDecodeResult {
  headers : compress.HeaderPieceList;
  bytesConsumed : Z
}.

Inductive Result (T E : Type) :=
| Ok (t : T)
| Err (e : E).
Arguments Ok {T E} t.
Arguments Err {T E} e.

Module HPACKDecoder.
(** Modelled from the spec: the decoder's error causes.  The code
    names [HEADERS_TOO_LARGE]; the others are the malformed-input causes
    the specification lists. *)
Inductive Error :=
| NONE
| INVALID_INDEX
| INVALID_HUFFMAN_CODE
| INVALID_ENCODING
| INTEGER_OVERFLOW
| HEADERS_TOO_LARGE.

(** [==] on error causes. *)
Definition Error_eq_dec (a b : Error) : {a = b} + {a <> b}.
Proof. decide equality. Defined.
End HPACKDecoder.

Module HeaderCodec.
(** The codec type under which statistics are recorded. *)
Inductive CodecType := HPACK.

(** What a stats recorder is told. *)
Inductive StatsEvent :=
| recordEncode (t : CodecType) (s : HTTPHeaderSize)
| recordDecode (t : CodecType) (s : HTTPHeaderSize)
| recordDecodeError (t : CodecType).

(** A stats recorder is the sequence of events it has received. *)
Definition Stats := list StatsEvent.
End HeaderCodec.

(* ------------------------------------------------------------------ *)
(** ** The compression engine *)

(** Modelled from the spec: the encoder and the decoder of the engine.
    Each is bound at construction to a message type; its operations
    transform a table state of its own.  [engine_encode] returns the
    buffer produced, if any; as the specification assumes, it cannot
    fail.  [engine_decode] receives the cursor, the declared length and
    the list to fill, and returns the advanced cursor, the number of
    bytes consumed and the list filled. *)
Class HPACKEngine := {
  EncoderTable : Type;
  DecoderTable : Type;
  encoder_init : HPACK.MessageType -> bool -> EncoderTable;
  decoder_init : HPACK.MessageType -> DecoderTable;
  engine_encode : HPACK.MessageType -> bool -> EncoderTable ->
                  list HPACKHeader -> Z -> EncoderTable * option IOBuf;
  engine_decode : HPACK.MessageType -> DecoderTable ->
                  Cursor -> Z -> list HPACKHeader ->
                  DecoderTable * Cursor * Z * list HPACKHeader;
  engine_hasError : DecoderTable -> bool;
  engine_getError : DecoderTable -> HPACKDecoder.Error;
  engine_getTable : DecoderTable -> string
}.

Section Codec.

Context {E : HPACKEngine}.

(** Modelled from the spec: an [HPACKEncoder] object (the class is not part
    of this unit) is its two constructor arguments, to which it stays
    bound, and its table. *)
Record HPACKEncoder := mkEncoder {
  enc_msgType : HPACK.MessageType;
  enc_huffman : bool;
  enc_table : EncoderTable
}.

(** Modelled from the spec: an [HPACKDecoder] object, likewise. *)
Record HPACKDecoder := mkDecoder {
  dec_msgType : HPACK.MessageType;
  dec_table : DecoderTable
}.

Definition new_HPACKEncoder (t : HPACK.MessageType) (huffman : bool)
  : HPACKEncoder :=
  mkEncoder t huffman (encoder_init t huffman).

Definition new_HPACKDecoder (t : HPACK.MessageType) : HPACKDecoder :=
  mkDecoder t (decoder_init t).

(** [encoder_->encode(converted, headroom)]. *)
Definition HPACKEncoder_encode (e : HPACKEncoder)
    (converted : list HPACKHeader) (headroom : Z)
  : HPACKEncoder * option IOBuf :=
  let '(t', buf) :=
    engine_encode (enc_msgType e) (enc_huffman e) (enc_table e)
                  converted headroom in
  (mkEncoder (enc_msgType e) (enc_huffman e) t', buf).

(** [decoder_->decode(cursor, length, headers)]. *)
Definition HPACKDecoder_decode (d : HPACKDecoder) (cursor : Cursor)
    (length : Z) (hs : list HPACKHeader)
  : HPACKDecoder * Cursor * Z * list HPACKHeader :=
  let '(t', cursor', consumed, hs') :=
    engine_decode (dec_msgType d) (dec_table d) cursor length hs in
  (mkDecoder (dec_msgType d) t', cursor', consumed, hs').

Definition hasError (d : HPACKDecoder) : bool :=
  engine_hasError (dec_table d).

Definition getError (d : HPACKDecoder) : HPACKDecoder.Error :=
  engine_getError (dec_table d).

Definition getTable (d : HPACKDecoder) : string :=
  engine_getTable (dec_table d).

(* ------------------------------------------------------------------ *)
(** ** The adapter *)

(** The members of [HPACKCodec].  [stats_] is the recorder attached, if
    any; [errorLog] is what the adapter has written to [LOG(ERROR)]. *)
Record HPACKCodec := mkCodec {
  encoder_ : HPACKEncoder;
  decoder_ : HPACKDecoder;
  encodeHeadroom_ : Z;
  encodedSize_ : HTTPHeaderSize;
  decodedSize_ : HTTPHeaderSize;
  stats_ : option HeaderCodec.Stats;
  outHeaders_ : compress.HeaderPieceList;
  decodedHeaders_ : list HPACKHeader;
  errorLog : list string
}.

(** [HPACKCodec::HPACKCodec(direction)].  The members the constructor
    does not name start empty or zero. *)
Definition new_HPACKCodec (direction : TransportDirection) : HPACKCodec :=
  let '(encoderType, decoderType) :=
    match direction with
    | DOWNSTREAM => (HPACK.RESP, HPACK.REQ)
    | UPSTREAM => (HPACK.REQ, HPACK.RESP)
    end in
  mkCodec (new_HPACKEncoder encoderType true)
          (new_HPACKDecoder decoderType)
          0 (mkSize 0 0) (mkSize 0 0) None [] [] [].

(** *** encode *)

(** The state of the conversion loop of [encode]: the store, the vector
    [converted] (its elements are pairs of strings, each given by its
    buffer) and the counter [uncompressed]. *)
Definition ConvertState : Type := Mem * list (addr * addr) * Z.

(** One iteration of the loop of [encode] over the caller's header [h].
    The caller's strings are the [live] first of the store; those after
    them are the loop's own.  [*h.name] and [*h.value] need one of the
    caller's strings at each of the two pointers; with none at one of
    them the iteration has no outcome. *)
Definition convert_step (policy : CopyPolicy) (live : nat)
    (st : ConvertState) (h : compress.Header) : option ConvertState :=
  let '(m, converted, uncompressed) := st in
  if ((compress.name h <? live) && (compress.value h <? live))%nat then
    (* HPACKHeader header( *h.name, *h.value): two copies *)
    let '(m, header_name) := copy_string policy m (compress.name h) in
    let '(m, header_value) := copy_string policy m (compress.value h) in
    (* toLowerAscii on the characters of header.name, in place, through
       const_cast<char*>(header.name.data()) *)
    let m := store m header_name (toLowerAscii (load m header_name)) in
    (* converted.push_back(header): the element is a copy of header *)
    let '(m, elt_name) := copy_string policy m header_name in
    let '(m, elt_value) := copy_string policy m header_value in
    let converted := converted ++ [(elt_name, elt_value)] in
    (* uncompressed += header.name.size() + header.value.size() + 2 *)
    let uncompressed :=
      to_uint32
        (size_t_add uncompressed
           (size_t_add (size_t_add (size (load m header_name))
                                   (size (load m header_value))) 2)) in
    Some (m, converted, uncompressed)
  else None.

(** The loop over the headers that are left. *)
Fixpoint convert_from (policy : CopyPolicy) (live : nat) (st : ConvertState)
    (hs : list compress.Header) : option ConvertState :=
  match hs with
  | [] => Some st
  | h :: rest =>
    match convert_step policy live st h with
    | Some st' => convert_from policy live st' rest
    | None => None
    end
  end.

(** The whole loop, from an empty [converted] and a zero counter; the
    caller's strings are those of the store at this point. *)
Definition convert (policy : CopyPolicy) (m : Mem)
    (hs : list compress.Header) : option ConvertState :=
  convert_from policy (List.length m) (m, [], 0) hs.

(** The value of an element of [converted]. *)
Definition read_header (m : Mem) (p : addr * addr) : HPACKHeader :=
  mkHPACKHeader (load m (fst p)) (load m (snd p)).

(** The header of the caller's list as the text it points to. *)
Definition deref (m : Mem) (h : compress.Header) : HPACKHeader :=
  mkHPACKHeader (load m (compress.name h)) (load m (compress.value h)).

(** What [encode] hands to the engine's encoder: the elements of
    [converted] as they read when the loop has ended. *)
Definition encode_engine_input (policy : CopyPolicy) (m : Mem)
    (hs : list compress.Header) : option (list HPACKHeader) :=
  match convert policy m hs with
  | Some (m', converted, _) => Some (map (read_header m') converted)
  | None => None
  end.

(** Telling the recorder, when one is attached. *)
Definition record (s : option HeaderCodec.Stats) (ev : HeaderCodec.StatsEvent)
  : option HeaderCodec.Stats :=
  match s with
  | Some events => Some (events ++ [ev])
  | None => None
  end.

(** [HPACKCodec::encode(headers)]: the store and the adapter after the
    call, and the buffer returned; no outcome when the loop has none. *)
Definition encode (policy : CopyPolicy) (m : Mem) (c : HPACKCodec)
    (hs : list compress.Header)
  : option (Mem * HPACKCodec * option IOBuf) :=
  match convert policy m hs with
  | None => None
  | Some (m', converted, uncompressed) =>
    let '(enc', buf) :=
      HPACKEncoder_encode (encoder_ c) (map (read_header m') converted)
                          (encodeHeadroom_ c) in
    let compressed :=
      match buf with
      | Some b => computeChainDataLength b
      | None => 0
      end in
    let encodedSize := mkSize compressed uncompressed in
    let stats :=
      record (stats_ c)
             (HeaderCodec.recordEncode HeaderCodec.HPACK encodedSize) in
    Some (m',
          mkCodec enc' (decoder_ c) (encodeHeadroom_ c) encodedSize
                  (decodedSize_ c) stats (outHeaders_ c) (decodedHeaders_ c)
                  (errorLog c),
          buf)
  end.

(** *** decode *)

(** The two pieces built from a decoded header. *)
Definition name_piece (h : HPACKHeader) (multiValued : bool)
  : compress.HeaderPiece :=
  compress.mkHeaderPiece (name h) (size (name h)) false multiValued.

Definition value_piece (h : HPACKHeader) (multiValued : bool)
  : compress.HeaderPiece :=
  compress.mkHeaderPiece (value h) (size (value h)) false multiValued.

(** The loop of [decode] over [decodedHeaders_], with its [uint32_t]
    counter [i].  [fuel] bounds the number of times the loop condition is
    evaluated; the loop has run to its end when the result is [Some].
    The element is read at an index below the size, so the lookup never
    takes its [None] branch. *)
Fixpoint decode_loop (fuel : nat) (decodedHeaders : list HPACKHeader)
    (i : Z) (outHeaders : compress.HeaderPieceList) (uncompressed : Z)
  : option (compress.HeaderPieceList * Z) :=
  match fuel with
  | O => None
  | S fuel' =>
    if i <? Z.of_nat (List.length decodedHeaders) then
      match nth_error decodedHeaders (Z.to_nat i) with
      | None => None
      | Some h =>
        let multiValued := true in
        let outHeaders := outHeaders ++ [name_piece h multiValued] in
        let outHeaders := outHeaders ++ [value_piece h multiValued] in
        let uncompressed :=
          to_uint32
            (size_t_add uncompressed
               (size_t_add (size_t_add (size (name h)) (size (value h))) 2)) in
        decode_loop fuel' decodedHeaders (uint32_incr i) outHeaders uncompressed
      end
    else Some (outHeaders, uncompressed)
  end.

Definition DecodeReturn : Type :=
  HPACKCodec * Cursor * Result HeaderDecodeResult HeaderDecodeError.

(** [HPACKCodec::decode(cursor, length)]: the adapter and the cursor after
    the call, and the value returned; [None] when [fuel] does not let the
    conversion loop finish. *)
Definition decode (fuel : nat) (c : HPACKCodec) (cursor : Cursor) (length : Z)
  : option DecodeReturn :=
  (* outHeaders_.clear(); decodedHeaders_.clear() *)
  let outHeaders : compress.HeaderPieceList := [] in
  let decodedHeaders : list HPACKHeader := [] in
  let '(dec', cursor', consumed, decodedHeaders) :=
    HPACKDecoder_decode (decoder_ c) cursor length decodedHeaders in
  if hasError dec' then
    let log := (errorLog c ++ [("decoder state: " ++ getTable dec')%string]) in
    let stats :=
      record (stats_ c) (HeaderCodec.recordDecodeError HeaderCodec.HPACK) in
    let c' :=
      mkCodec (encoder_ c) dec' (encodeHeadroom_ c) (encodedSize_ c)
              (decodedSize_ c) stats outHeaders decodedHeaders log in
    if HPACKDecoder.Error_eq_dec (getError dec') HPACKDecoder.HEADERS_TOO_LARGE
    then Some (c', cursor', Err HEADERS_TOO_LARGE)
    else Some (c', cursor', Err BAD_ENCODING)
  else
    match decode_loop fuel decodedHeaders 0 outHeaders 0 with
    | None => None
    | Some (outHeaders, uncompressed) =>
      let decodedSize := mkSize consumed uncompressed in
      let stats :=
        record (stats_ c)
               (HeaderCodec.recordDecode HeaderCodec.HPACK decodedSize) in
      Some (mkCodec (encoder_ c) dec' (encodeHeadroom_ c) (encodedSize_ c)
                    decodedSize stats outHeaders decodedHeaders (errorLog c),
            cursor',
            Ok (mkDecodeResult outHeaders consumed))
    end.

End Codec.


(* ------------------------------------------------------------------ *)
(** ** What the specification speaks of *)

(** The per-header size the accounting uses: name length, value length
    and the fixed overhead of two. *)
Definition headerSize (h : HPACKHeader) : Z :=
  size (name h) + size (value h) + 2.

(** The sum of [headerSize] over a header list. *)
Definition uncompressedSum (hs : list HPACKHeader) : Z :=
  fold_right (fun h acc => headerSize h + acc) 0 hs.

(** The normalized form of a header: the name in lower case, the value
    as it is. *)
Definition normalize (h : HPACKHeader) : HPACKHeader :=
  mkHPACKHeader (toLowerAscii (name h)) (value h).

(** The piece list of a list of decoded headers: for each header its name
    piece, then its value piece, both multi-valued. *)
Definition pieces_of (hs : list HPACKHeader) : compress.HeaderPieceList :=
  flat_map (fun h => [name_piece h true; value_piece h true]) hs.

(** Every pointer of the caller's header points to a string of the
    store. *)
Definition valid_header (m : Mem) (h : compress.Header) : bool :=
  (compress.name h <? List.length m)%nat &&
  (compress.value h <? List.length m)%nat.

Definition valid_headers (m : Mem) (hs : list compress.Header) : bool :=
  forallb (valid_header m) hs.

(** The lower-case form of a character, letter by letter: what
    "ASCII-lowercase" says, without reference to the code. *)
Definition lowercase_letter (ch : ascii) : ascii :=
  match ch with
  | "A" => "a" | "B" => "b" | "C" => "c" | "D" => "d" | "E" => "e"
  | "F" => "f" | "G" => "g" | "H" => "h" | "I" => "i" | "J" => "j"
  | "K" => "k" | "L" => "l" | "M" => "m" | "N" => "n" | "O" => "o"
  | "P" => "p" | "Q" => "q" | "R" => "r" | "S" => "s" | "T" => "t"
  | "U" => "u" | "V" => "v" | "W" => "w" | "X" => "x" | "Y" => "y"
  | "Z" => "z"
  | _ => ch
  end%char.

(** The ASCII-lowercase transform of a string. *)
Fixpoint ascii_lowercase (s : string) : string :=
  match s with
  | EmptyString => EmptyString
  | String ch r => String (lowercase_letter ch) (ascii_lowercase r)
  end.

(** The text [s] of a buffer whose text was [s0] before some iterations
    of the conversion loop: with own buffers it is [s0]; with shared
    buffers it is [s0] or the lower-case form of [s0]. *)
Definition same_up_to (policy : CopyPolicy) (s0 s : string) : Prop :=
  match policy with
  | Owning => s = s0
  | Sharing => s = s0 \/ s = toLowerAscii s0
  end.

(** The store [M] comes from [m0] by iterations of the conversion
    loop. *)
Definition evolves (policy : CopyPolicy) (m0 M : Mem) : Prop :=
  (List.length m0 <= List.length M)%nat /\
  forall p, (p < List.length m0)%nat ->
            same_up_to policy (load m0 p) (load M p).

(** What an element of [converted] reads as in the store [M'], for the
    header [h] of the list and the store [M] the loop started from. *)
Definition reads_as (policy : CopyPolicy) (M M' : Mem) (p : addr * addr)
    (h : compress.Header) : Prop :=
  (fst p < List.length M')%nat /\ (snd p < List.length M')%nat /\
  load M' (fst p) = toLowerAscii (load M (compress.name h)) /\
  same_up_to policy (load M (compress.value h)) (load M' (snd p)).

(** Accessors of the return value of [decode]. *)
Definition result_headers (r : Result HeaderDecodeResult HeaderDecodeError)
  : option compress.HeaderPieceList :=
  match r with Ok t => Some (headers t) | Err _ => None end.

Definition result_bytesConsumed (r : Result HeaderDecodeResult HeaderDecodeError)
  : option Z :=
  match r with Ok t => Some (bytesConsumed t) | Err _ => None end.

Section Calls.

Context {E : HPACKEngine}.

(** What [encode] returns once the conversion loop has ended in the
    state [st]. *)
Definition encode_return (c : HPACKCodec) (st : ConvertState)
  : Mem * HPACKCodec * option IOBuf :=
  let r := HPACKEncoder_encode (encoder_ c)
                               (map (read_header (fst (fst st)))
                                    (snd (fst st)))
                               (encodeHeadroom_ c) in
  let encodedSize :=
    mkSize match snd r with
           | Some b => computeChainDataLength b
           | None => 0
           end
           (snd st) in
  (fst (fst st),
   mkCodec (fst r) (decoder_ c) (encodeHeadroom_ c) encodedSize
           (decodedSize_ c)
           (record (stats_ c)
                   (HeaderCodec.recordEncode HeaderCodec.HPACK encodedSize))
           (outHeaders_ c) (decodedHeaders_ c) (errorLog c),
   snd r).

(** The call of the engine's decoder that [decode] makes: on the
    cleared list of decoded headers. *)
Definition decoder_call (c : HPACKCodec) (cursor : Cursor) (length : Z)
  : HPACKDecoder * Cursor * Z * list HPACKHeader :=
  HPACKDecoder_decode (decoder_ c) cursor length [].

Definition call_decoder (x : HPACKDecoder * Cursor * Z * list HPACKHeader)
  : HPACKDecoder := fst (fst (fst x)).
Definition call_cursor (x : HPACKDecoder * Cursor * Z * list HPACKHeader)
  : Cursor := snd (fst (fst x)).
Definition call_consumed (x : HPACKDecoder * Cursor * Z * list HPACKHeader)
  : Z := snd (fst x).
Definition call_headers (x : HPACKDecoder * Cursor * Z * list HPACKHeader)
  : list HPACKHeader := snd x.

(** The error kind [decode] returns for an engine error. *)
Definition classify (e : HPACKDecoder.Error) : HeaderDecodeError :=
  if HPACKDecoder.Error_eq_dec e HPACKDecoder.HEADERS_TOO_LARGE
  then HEADERS_TOO_LARGE else BAD_ENCODING.

(** What [decode] returns when the engine reports an error. *)
Definition decode_failure (c : HPACKCodec) (cursor : Cursor) (length : Z)
  : DecodeReturn :=
  let x := decoder_call c cursor length in
  (mkCodec (encoder_ c) (call_decoder x) (encodeHeadroom_ c) (encodedSize_ c)
           (decodedSize_ c)
           (record (stats_ c)
                   (HeaderCodec.recordDecodeError HeaderCodec.HPACK))
           [] (call_headers x)
           (errorLog c
            ++ [("decoder state: " ++ getTable (call_decoder x))%string]),
   call_cursor x,
   Err (classify (getError (call_decoder x)))).

(** What [decode] returns when the engine reports no error. *)
Definition decode_success (c : HPACKCodec) (cursor : Cursor) (length : Z)
  : DecodeReturn :=
  let x := decoder_call c cursor length in
  let decodedSize :=
    mkSize (call_consumed x)
           (to_uint32 (uncompressedSum (call_headers x))) in
  (mkCodec (encoder_ c) (call_decoder x) (encodeHeadroom_ c) (encodedSize_ c)
           decodedSize
           (record (stats_ c)
                   (HeaderCodec.recordDecode HeaderCodec.HPACK decodedSize))
           (pieces_of (call_headers x)) (call_headers x) (errorLog c),
   call_cursor x,
   Ok (mkDecodeResult (pieces_of (call_headers x)) (call_consumed x))).

(** A call on the adapter. *)
Inductive Call :=
| call_encode (hs : list compress.Header)
| call_decode (cursor : Cursor) (length : Z).

(** The store and the adapter after one call. *)
Definition run_call (policy : CopyPolicy) (fuel : nat)
    (st : Mem * HPACKCodec) (call : Call) : option (Mem * HPACKCodec) :=
  match call with
  | call_encode hs =>
    match encode policy (fst st) (snd st) hs with
    | Some ret => Some (fst ret)
    | None => None
    end
  | call_decode cursor length =>
    match decode fuel (snd st) cursor length with
    | Some ret => Some (fst st, fst (fst ret))
    | None => None
    end
  end.

(** The store and the adapter after a sequence of calls. *)
Fixpoint run_calls (policy : CopyPolicy) (fuel : nat)
    (st : Mem * HPACKCodec) (calls : list Call)
  : option (Mem * HPACKCodec) :=
  match calls with
  | [] => Some st
  | call :: rest =>
    match run_call policy fuel st call with
    | Some st' => run_calls policy fuel st' rest
    | None => None
    end
  end.

(** The adapter with other contents in its two scratch lists. *)
Definition with_scratch (c : HPACKCodec) (out : compress.HeaderPieceList)
    (decoded : list HPACKHeader) : HPACKCodec :=
  mkCodec (encoder_ c) (decoder_ c) (encodeHeadroom_ c) (encodedSize_ c)
          (decodedSize_ c) (stats_ c) out decoded (errorLog c).

End Calls.

(* ------------------------------------------------------------------ *)
(** ** A small engine to run the adapter on

  Each header travels as one length byte and the name, then one length
  byte and the value.  The encoder produces no buffer for an empty list.
  The decoder reads the declared number of bytes; a block that stops
  short is [INVALID_ENCODING], a block of more than [maxHeaders] headers
  is [HEADERS_TOO_LARGE]. *)

Module FakeEngine.

Definition length_byte (s : string) : byte :=
  match Byte.of_nat (String.length s) with
  | Some b => b
  | None => x00
  end.

Definition wire (h : HPACKHeader) : list byte :=
  length_byte (name h) :: list_byte_of_string (name h) ++
  length_byte (value h) :: list_byte_of_string (value h).

Definition fake_encode (_ : HPACK.MessageType) (_ : bool) (calls : nat)
    (hs : list HPACKHeader) (headroom : Z) : nat * option IOBuf :=
  (S calls,
   match hs with
   | [] => None
   | _ => Some [flat_map wire hs]
   end).

Fixpoint parse (fuel : nat) (bs : list byte) : option (list HPACKHeader) :=
  match fuel, bs with
  | O, _ => None
  | _, [] => Some []
  | S fuel', n :: r =>
    let nl := Byte.to_nat n in
    if (List.length r <? nl)%nat then None else
    match skipn nl r with
    | [] => None
    | v :: r' =>
      let vl := Byte.to_nat v in
      if (List.length r' <? vl)%nat then None else
      match parse fuel' (skipn vl r') with
      | None => None
      | Some hs =>
        Some (mkHPACKHeader (string_of_list_byte (firstn nl r))
                            (string_of_list_byte (firstn vl r')) :: hs)
      end
    end
  end.

Definition maxHeaders : nat := 4.

Definition fake_decode (_ : HPACK.MessageType) (_ : HPACKDecoder.Error)
    (cursor : Cursor) (length : Z) (out : list HPACKHeader)
  : HPACKDecoder.Error * Cursor * Z * list HPACKHeader :=
  let n := Z.to_nat length in
  let block := firstn n cursor in
  match parse (S n) block with
  | None => (HPACKDecoder.INVALID_ENCODING, skipn n cursor, length, out)
  | Some hs =>
    if (maxHeaders <? List.length hs)%nat
    then (HPACKDecoder.HEADERS_TOO_LARGE, skipn n cursor, length,
          out ++ firstn maxHeaders hs)
    else (HPACKDecoder.NONE, skipn n cursor, length, out ++ hs)
  end.

Definition fake_hasError (e : HPACKDecoder.Error) : bool :=
  if HPACKDecoder.Error_eq_dec e HPACKDecoder.NONE then false else true.

#[export] Instance engine : HPACKEngine := {|
  EncoderTable := nat;
  DecoderTable := HPACKDecoder.Error;
  encoder_init := fun _ _ => O;
  decoder_init := fun _ => HPACKDecoder.NONE;
  engine_encode := fake_encode;
  engine_decode := fake_decode;
  engine_hasError := fake_hasError;
  engine_getError := fun e => e;
  engine_getTable := fun _ => "(empty)"%string
|}.

(** A caller's store and header list: [("X-Test","1"), ("x-test","2")]. *)
Definition mem0 : Mem := ["X-Test"; "1"; "x-test"; "2"]%string.
Definition headers0 : list compress.Header :=
  [compress.mkHeader 0%nat 1%nat; compress.mkHeader 2%nat 3%nat].

End FakeEngine.

(* ------------------------------------------------------------------ *)
(** ** Inputs *)

Module Overflow.

(** A value of 2^32 - 2 characters. *)
Definition big_value : string :=
  Pos.iter (String "a"%char) EmptyString 4294967294.

(** The caller's store and list: one header, the empty name and
    [big_value]. *)
Definition big_mem : Mem := [EmptyString; big_value].
Definition big_headers : list compress.Header :=
  [compress.mkHeader 0%nat 1%nat].

End Overflow.

(* ------------------------------------------------------------------ *)
(** ** The adapter at work on the small engine *)

Module Run.

Import FakeEngine.

Definition up : HPACKCodec := new_HPACKCodec UPSTREAM.
Definition down : HPACKCodec := new_HPACKCodec DOWNSTREAM.

(** The block [encode] produces for [headers0]. *)
Definition block0 : Cursor :=
  Eval vm_compute in
    match encode Owning mem0 down headers0 with
    | Some (_, _, Some b) => List.concat b
    | _ => []
    end.

(** A block that stops in the middle of a name. *)
Definition short_block : Cursor := [x02; x61].

(** A block of five empty headers. *)
Definition long_block : Cursor :=
  [x00; x00; x00; x00; x00; x00; x00; x00; x00; x00].

(** The adapter and the result after [up] has decoded [block0]. *)
Definition up1 : HPACKCodec :=
  Eval vm_compute in
    match decode 3 up block0 18 with
    | Some (c, _, _) => c
    | None => up
    end.
Definition result1 : HeaderDecodeResult :=
  Eval vm_compute in
    match decode 3 up block0 18 with
    | Some (_, _, Ok r) => r
    | _ => mkDecodeResult [] 0
    end.

(** The adapter and the result after [up1] has decoded the block of
    one header, [("b","c")]. *)
Definition block2 : Cursor := [x01; x62; x01; x63].
Definition up2 : HPACKCodec :=
  Eval vm_compute in
    match decode 3 up1 block2 4 with
    | Some (c, _, _) => c
    | None => up1
    end.
Definition result2 : HeaderDecodeResult :=
  Eval vm_compute in
    match decode 3 up1 block2 4 with
    | Some (_, _, Ok r) => r
    | _ => mkDecodeResult [] 0
    end.

(** An adapter with a recorder attached and some decode sizes, and what
    it is after it has failed on [short_block]. *)
Definition up_stats : HPACKCodec :=
  mkCodec (encoder_ up) (decoder_ up) 0 (mkSize 0 0) (mkSize 7 9)
          (Some []) [] [] [].
Definition up_failed : HPACKCodec :=
  Eval vm_compute in
    match decode 0 up_stats short_block 2 with
    | Some (c, _, _) => c
    | None => up_stats
    end.

(** An encode, then a decode, on one adapter. *)
Definition calls0 : list Call :=
  [call_encode headers0; call_decode block0 18].
Definition after_calls0 : Mem * HPACKCodec :=
  Eval vm_compute in
    match run_calls Owning 3 (mem0, down) calls0 with
    | Some st => st
    | None => (mem0, down)
    end.

End Run.

(* ------------------------------------------------------------------ *)
(** ** Further notions *)

(** The sum of the lengths the pieces of a list carry. *)
Definition sum_len (ps : compress.HeaderPieceList) : Z :=
  fold_right (fun p acc => compress.len p + acc) 0 ps.

(** The character is none of the 26 upper-case ASCII letters. *)
Definition not_upper (ch : ascii) : bool :=
  ((N_of_ascii ch <? 65) || (90 <? N_of_ascii ch))%N.

(** The string holds no upper-case ASCII letter. *)
Fixpoint no_upper (s : string) : bool :=
  match s with
  | EmptyString => true
  | String ch r => not_upper ch && no_upper r
  end.


Definition is_encode (call : Call) : bool :=
  match call with call_encode _ => true | call_decode _ _ => false end.

Definition is_decode (call : Call) : bool :=
  match call with call_encode _ => false | call_decode _ _ => true end.

(** Every header list among the calls has its pointers in the store
    [m]. *)
Definition calls_valid (m : Mem) (calls : list Call) : bool :=
  forallb (fun call => match call with
                       | call_encode hs => valid_headers m hs
                       | call_decode _ _ => true
                       end) calls.

(** An engine whose decoder, whatever it is given, reports no error and
    appends 2^32 empty headers to the list. *)
Module BigEngine.

Definition many : positive := 4294967296.

Definition big_decode (_ : HPACK.MessageType) (_ : unit)
    (cursor : Cursor) (length : Z) (out : list HPACKHeader)
  : unit * Cursor * Z * list HPACKHeader :=
  (tt, cursor, 0,
   Pos.iter (cons (mkHPACKHeader EmptyString EmptyString)) out many).

Definition engine : HPACKEngine := {|
  EncoderTable := unit;
  DecoderTable := unit;
  encoder_init := fun _ _ => tt;
  decoder_init := fun _ => tt;
  engine_encode := fun _ _ _ _ _ => (tt, None);
  engine_decode := big_decode;
  engine_hasError := fun _ => false;
  engine_getError := fun _ => HPACKDecoder.NONE;
  engine_getTable := fun _ => EmptyString
|}.

End BigEngine.

(** More runs on the small engine. *)
Module Run2.

Import FakeEngine.

(** [down] after it has encoded [headers0], the store after that call and
    the buffer returned. *)
Definition mem1 : Mem :=
  Eval vm_compute in
    match encode Owning mem0 Run.down headers0 with
    | Some (m, _, _) => m
    | None => mem0
    end.
Definition down1 : HPACKCodec :=
  Eval vm_compute in
    match encode Owning mem0 Run.down headers0 with
    | Some (_, c, _) => c
    | None => Run.down
    end.

(** The same call when copies share their buffers: the store after
    it. *)
Definition mem1_shared : Mem :=
  Eval vm_compute in
    match encode Sharing mem0 Run.down headers0 with
    | Some (m, _, _) => m
    | None => mem0
    end.
Definition down1_shared : HPACKCodec :=
  Eval vm_compute in
    match encode Sharing mem0 Run.down headers0 with
    | Some (_, c, _) => c
    | None => Run.down
    end.

(** What [encode] hands the engine for [headers0]. *)
Definition input0 : list HPACKHeader :=
  [mkHPACKHeader "x-test" "1"; mkHPACKHeader "x-test" "2"].

(** [Run.calls0] when copies share their buffers. *)
Definition after_calls0_shared : Mem * HPACKCodec :=
  Eval vm_compute in
    match run_calls Sharing 3 (mem0, Run.down) Run.calls0 with
    | Some st => st
    | None => (mem0, Run.down)
    end.

(** A header whose name and value are one and the same string. *)
Definition alias_mem : Mem := ["AbC"]%string.
Definition alias_headers : list compress.Header :=
  [compress.mkHeader 0%nat 0%nat].

(** A list with a pointer to none of the caller's strings. *)
Definition dangling_headers : list compress.Header :=
  [compress.mkHeader 0%nat 1%nat; compress.mkHeader 2%nat 4%nat].

(** [Run.down] after it has encoded the empty list. *)
Definition down_empty : HPACKCodec :=
  Eval vm_compute in
    match encode Owning mem0 Run.down [] with
    | Some (_, c, _) => c
    | None => Run.down
    end.

(** An adapter with a recorder attached, and what it is after
    [Run.calls0]. *)
Definition down_stats : HPACKCodec :=
  mkCodec (encoder_ Run.down) (decoder_ Run.down) 0 (mkSize 0 0) (mkSize 0 0)
          (Some []) [] [] [].
Definition after_stats : Mem * HPACKCodec :=
  Eval vm_compute in
    match run_calls Owning 3 (mem0, down_stats) Run.calls0 with
    | Some st => st
    | None => (mem0, down_stats)
    end.

(** Two encodes in a row, from [Run.up1]; two decodes in a row, from
    [down1]. *)
Definition encodes0 : list Call := [call_encode headers0; call_encode []].
Definition after_encodes0 : Mem * HPACKCodec :=
  Eval vm_compute in
    match run_calls Owning 0 (mem0, Run.up1) encodes0 with
    | Some st => st
    | None => (mem0, Run.up1)
    end.
Definition decodes0 : list Call :=
  [call_decode Run.block0 18; call_decode Run.short_block 2].
Definition after_decodes0 : Mem * HPACKCodec :=
  Eval vm_compute in
    match run_calls Owning 3 (mem1, down1) decodes0 with
    | Some st => st
    | None => (mem1, down1)
    end.


(** A store and a list whose names are in lower case already. *)
Definition mem_lower : Mem := ["accept"; "*/*"; "x-id"; "A1"]%string.
Definition headers_lower : list compress.Header :=
  [compress.mkHeader 0%nat 1%nat; compress.mkHeader 2%nat 3%nat].

(** An adapter on the engine of [BigEngine]. *)
Definition big_codec : @HPACKCodec BigEngine.engine :=
  @new_HPACKCodec BigEngine.engine UPSTREAM.

End Run2.

(* ------------------------------------------------------------------ *)
(** ** Arithmetic of the counters *)

Lemma to_uint32_range (z : Z) : 0 <= to_uint32 z < 2 ^ 32.
Proof. unfold to_uint32. apply Z.mod_pos_bound. lia. Qed.

Lemma to_uint32_small (z : Z) : 0 <= z < 2 ^ 32 -> to_uint32 z = z.
Proof. intros H. unfold to_uint32. now apply Z.mod_small. Qed.

Lemma to_uint32_size_t (z : Z) : to_uint32 (z mod 2 ^ 64) = to_uint32 z.
Proof.
  unfold to_uint32.
  apply Z.mod_mod_divide.
  exists (2 ^ 32). reflexivity.
Qed.

Lemma to_uint32_add_l (a b : Z) : to_uint32 (to_uint32 a + b) = to_uint32 (a + b).
Proof. unfold to_uint32. now rewrite Zplus_mod_idemp_l. Qed.

(** The update of the counter, as one reduction of the exact sum. *)
Lemma counter_update (u a b : Z) :
  to_uint32 (size_t_add u (size_t_add (size_t_add a b) 2))
  = to_uint32 (u + (a + b + 2)).
Proof.
  unfold size_t_add.
  rewrite to_uint32_size_t.
  unfold to_uint32.
  rewrite <- (Zplus_mod_idemp_r (((a + b) mod 2 ^ 64 + 2) mod 2 ^ 64) u).
  rewrite <- (Zplus_mod_idemp_r (a + b + 2) u).
  f_equal. f_equal.
  change (to_uint32 (((a + b) mod 2 ^ 64 + 2) mod 2 ^ 64) = to_uint32 (a + b + 2)).
  rewrite to_uint32_size_t.
  unfold to_uint32.
  rewrite <- (Zplus_mod_idemp_l ((a + b) mod 2 ^ 64) 2).
  rewrite <- (Zplus_mod_idemp_l (a + b) 2).
  f_equal. f_equal.
  apply (to_uint32_size_t (a + b)).
Qed.

Lemma size_nonneg (s : string) : 0 <= size s.
Proof. unfold size. lia. Qed.

Lemma headerSize_pos (h : HPACKHeader) : 2 <= headerSize h.
Proof.
  unfold headerSize. pose proof (size_nonneg (name h)).
  pose proof (size_nonneg (value h)). lia.
Qed.

Lemma uncompressedSum_nonneg (hs : list HPACKHeader) : 0 <= uncompressedSum hs.
Proof.
  induction hs as [|h r IH]; simpl; [lia|].
  pose proof (headerSize_pos h). lia.
Qed.

Lemma uncompressedSum_cons (h : HPACKHeader) (r : list HPACKHeader) :
  uncompressedSum (h :: r) = headerSize h + uncompressedSum r.
Proof. reflexivity. Qed.

Lemma uncompressedSum_app (a b : list HPACKHeader) :
  uncompressedSum (a ++ b) = uncompressedSum a + uncompressedSum b.
Proof. induction a as [|h r IH]; simpl; lia. Qed.

(* ------------------------------------------------------------------ *)
(** ** Lower-casing *)

Lemma toLowerAscii_length (s : string) :
  String.length (toLowerAscii s) = String.length s.
Proof. induction s as [|c r IH]; simpl; congruence. Qed.

Lemma toLowerAscii_size (s : string) : size (toLowerAscii s) = size s.
Proof. unfold size. now rewrite toLowerAscii_length. Qed.

Lemma toLowerAsciiChar_upper (c : ascii) :
  (65 <= N_of_ascii c <= 90)%N ->
  N_of_ascii (toLowerAsciiChar c) = (N_of_ascii c + 32)%N.
Proof.
  intros [H1 H2]. unfold toLowerAsciiChar.
  apply N.leb_le in H1. apply N.leb_le in H2. rewrite H1, H2. simpl.
  apply N.leb_le in H2.
  apply N_ascii_embedding. lia.
Qed.

Lemma toLowerAsciiChar_other (c : ascii) :
  (N_of_ascii c < 65 \/ 90 < N_of_ascii c)%N -> toLowerAsciiChar c = c.
Proof.
  intros H. unfold toLowerAsciiChar.
  destruct (65 <=? N_of_ascii c)%N eqn:H1; simpl; [|reflexivity].
  destruct (N_of_ascii c <=? 90)%N eqn:H2; [|reflexivity].
  apply N.leb_le in H1. apply N.leb_le in H2. lia.
Qed.

Lemma toLowerAsciiChar_idem (c : ascii) :
  toLowerAsciiChar (toLowerAsciiChar c) = toLowerAsciiChar c.
Proof.
  destruct (N.le_gt_cases 65 (N_of_ascii c)) as [H1|H1];
    [destruct (N.le_gt_cases (N_of_ascii c) 90) as [H2|H2]|].
  - apply toLowerAsciiChar_other. rewrite toLowerAsciiChar_upper; lia.
  - now rewrite !(toLowerAsciiChar_other c) by lia.
  - now rewrite !(toLowerAsciiChar_other c) by lia.
Qed.

Lemma toLowerAscii_idem (s : string) :
  toLowerAscii (toLowerAscii s) = toLowerAscii s.
Proof.
  induction s as [|c r IH]; simpl; [reflexivity|].
  now rewrite toLowerAsciiChar_idem, IH.
Qed.

Example toLowerAscii_content_type :
  toLowerAscii "Content-Type" = "content-type"%string.
Proof. reflexivity. Qed.

Lemma headerSize_normalize (h : HPACKHeader) :
  headerSize (normalize h) = headerSize h.
Proof. unfold headerSize, normalize. simpl. now rewrite toLowerAscii_size. Qed.

Lemma uncompressedSum_normalize (hs : list HPACKHeader) :
  uncompressedSum (map normalize hs) = uncompressedSum hs.
Proof.
  induction hs as [|h r IH]; simpl; [reflexivity|].
  now rewrite headerSize_normalize, IH.
Qed.

(* ------------------------------------------------------------------ *)
(** ** The store *)

Lemma load_app_l (m ext : Mem) (p : addr) :
  (p < List.length m)%nat -> load (m ++ ext) p = load m p.
Proof. intros H. unfold load. now apply app_nth1. Qed.

Lemma load_app_r (m ext : Mem) (k : nat) :
  load (m ++ ext) (List.length m + k)%nat = nth k ext EmptyString.
Proof. unfold load. apply app_nth2_plus. Qed.

Lemma store_app_at (m r : Mem) (x s : string) :
  store (m ++ x :: r) (List.length m) s = m ++ s :: r.
Proof. induction m as [|y m IH]; simpl; [reflexivity|]. now rewrite IH. Qed.

Lemma store_length (m : Mem) (p : addr) (s : string) :
  List.length (store m p s) = List.length m.
Proof.
  revert p. induction m as [|y m IH]; intros [|p]; simpl; auto.
Qed.

Lemma load_store_other (m : Mem) (p q : addr) (s : string) :
  p <> q -> load (store m p s) q = load m q.
Proof.
  unfold load. revert p q.
  induction m as [|y m IH]; intros [|p] [|q] H; simpl; auto; congruence.
Qed.

Lemma toLowerAsciiChar_lowercase_letter (ch : ascii) :
  toLowerAsciiChar ch = lowercase_letter ch.
Proof. destruct ch as [[] [] [] [] [] [] [] []]; reflexivity. Qed.

(** [toLowerAscii] computes the ASCII-lowercase transform. *)
Lemma toLowerAscii_ascii_lowercase (s : string) :
  toLowerAscii s = ascii_lowercase s.
Proof.
  induction s as [|ch r IH]; simpl; [reflexivity|].
  now rewrite toLowerAsciiChar_lowercase_letter, IH.
Qed.

Lemma load_lt_nth_error (m : Mem) (p : addr) :
  (p < List.length m)%nat -> nth_error m p = Some (load m p).
Proof. intros H. unfold load. now apply nth_error_nth'. Qed.

Lemma nth_error_some_lt (m : Mem) (p : addr) (s : string) :
  nth_error m p = Some s -> (p < List.length m)%nat.
Proof. intros H. apply nth_error_Some. congruence. Qed.

Lemma load_store_same (m : Mem) (p : addr) (s : string) :
  (p < List.length m)%nat -> load (store m p s) p = s.
Proof.
  unfold load. revert p.
  induction m as [|y m IH]; intros [|p] H; simpl in *; try lia; auto.
  apply IH. lia.
Qed.

Lemma store_load_same (m : Mem) (p : addr) : store m p (load m p) = m.
Proof.
  unfold load. revert p.
  induction m as [|y m IH]; intros [|p]; simpl; auto. now rewrite IH.
Qed.

Section CodecFacts.

Context {E : HPACKEngine}.

(** *** Texts before and after iterations of the conversion loop *)

Lemma same_up_to_refl (policy : CopyPolicy) (s : string) :
  same_up_to policy s s.
Proof. destruct policy; simpl; auto. Qed.

Lemma same_up_to_trans (policy : CopyPolicy) (a b c : string) :
  same_up_to policy a b -> same_up_to policy b c -> same_up_to policy a c.
Proof.
  destruct policy; simpl.
  - congruence.
  - intros [->| ->] [->| ->]; auto. right. apply toLowerAscii_idem.
Qed.

Lemma same_up_to_lower (policy : CopyPolicy) (a b : string) :
  same_up_to policy a b -> toLowerAscii b = toLowerAscii a.
Proof.
  destruct policy; simpl.
  - now intros ->.
  - intros [->| ->]; [reflexivity|apply toLowerAscii_idem].
Qed.

Lemma same_up_to_size (policy : CopyPolicy) (a b : string) :
  same_up_to policy a b -> size b = size a.
Proof.
  destruct policy; simpl.
  - now intros ->.
  - intros [->| ->]; [reflexivity|apply toLowerAscii_size].
Qed.

Lemma same_up_to_of_lower (policy : CopyPolicy) (a b : string) :
  same_up_to policy (toLowerAscii a) b -> b = toLowerAscii a.
Proof.
  destruct policy; simpl.
  - auto.
  - intros [->| ->]; [reflexivity|apply toLowerAscii_idem].
Qed.

Lemma evolves_refl (policy : CopyPolicy) (m : Mem) : evolves policy m m.
Proof. split; [lia|]. intros p _. apply same_up_to_refl. Qed.

Lemma evolves_trans (policy : CopyPolicy) (m0 m1 m2 : Mem) :
  evolves policy m0 m1 -> evolves policy m1 m2 -> evolves policy m0 m2.
Proof.
  intros [Hl1 H1] [Hl2 H2]. split; [lia|].
  intros p Hp. eapply same_up_to_trans; [apply H1; lia|apply H2; lia].
Qed.

Lemma valid_header_lt (m : Mem) (h : compress.Header) :
  valid_header m h = true <->
  (compress.name h < List.length m)%nat /\
  (compress.value h < List.length m)%nat.
Proof.
  unfold valid_header. rewrite andb_true_iff, !Nat.ltb_lt. tauto.
Qed.

Lemma valid_header_le (m M : Mem) (h : compress.Header) :
  (List.length m <= List.length M)%nat ->
  valid_header m h = true -> valid_header M h = true.
Proof. rewrite !valid_header_lt. lia. Qed.

Lemma valid_headers_le (m M : Mem) (hs : list compress.Header) :
  (List.length m <= List.length M)%nat ->
  valid_headers m hs = true -> valid_headers M hs = true.
Proof.
  intros Hle. unfold valid_headers. rewrite !forallb_forall.
  intros H h Hin. eapply valid_header_le; eauto.
Qed.

(** *** One iteration *)

(** With a pointer to no string the iteration has no outcome. *)
Lemma convert_step_fault (policy : CopyPolicy) (M0 M : Mem)
    (conv : list (addr * addr)) (unc : Z) (h : compress.Header) :
  valid_header M0 h = false ->
  convert_step policy (List.length M0) (M, conv, unc) h = None.
Proof.
  intros Hv. unfold valid_header in Hv. unfold convert_step.
  now rewrite Hv.
Qed.

(** An iteration that has an outcome has read two of the caller's
    strings. *)
Lemma convert_step_some (policy : CopyPolicy) (M0 M : Mem)
    (conv : list (addr * addr)) (unc : Z) (h : compress.Header)
    (st : ConvertState) :
  convert_step policy (List.length M0) (M, conv, unc) h = Some st ->
  valid_header M0 h = true.
Proof.
  intros H. destruct (valid_header M0 h) eqn:Hv; [reflexivity|].
  rewrite (convert_step_fault policy M0 M conv unc h Hv) in H. discriminate.
Qed.

(** With own buffers the iteration adds four strings to the store, the
    local [header] and the element pushed onto [converted]; the one
    string it overwrites is among them. *)
Lemma convert_step_owning (M0 M : Mem) (conv : list (addr * addr)) (unc : Z)
    (h : compress.Header) :
  (List.length M0 <= List.length M)%nat ->
  valid_header M0 h = true ->
  convert_step Owning (List.length M0) (M, conv, unc) h =
  Some (M ++ [toLowerAscii (load M (compress.name h));
              load M (compress.value h);
              toLowerAscii (load M (compress.name h));
              load M (compress.value h)],
        conv ++ [(List.length M + 2, List.length M + 3)%nat],
        to_uint32 (unc + headerSize (deref M h))).
Proof.
  intros Hle Hv0. pose proof Hv0 as Hc. unfold valid_header in Hc.
  pose proof (valid_header_le M0 M h Hle Hv0) as Hv.
  apply valid_header_lt in Hv. destruct Hv as [Hn Hv].
  unfold convert_step, copy_string, alloc. rewrite Hc.
  set (n := load M (compress.name h)).
  assert (Hvl : load (M ++ [n]) (compress.value h) = load M (compress.value h))
    by now apply load_app_l.
  rewrite Hvl. set (v := load M (compress.value h)).
  rewrite <- (app_assoc M [n] [v]). simpl ([n] ++ [v]).
  assert (H0 : forall x y, load (M ++ [x; y]) (List.length M) = x).
  { intros x y. rewrite <- (Nat.add_0_r (List.length M)).
    now rewrite load_app_r. }
  rewrite H0, store_app_at, H0.
  assert (H1 : forall x y r, load (M ++ x :: y :: r) (List.length (M ++ [n])) = y).
  { intros x y r. rewrite length_app. simpl. now rewrite load_app_r. }
  rewrite <- !app_assoc. simpl app.
  rewrite !H1.
  assert (H0' : forall x r, load (M ++ x :: r) (List.length M) = x).
  { intros x r. rewrite <- (Nat.add_0_r (List.length M)).
    now rewrite load_app_r. }
  rewrite H0', counter_update.
  rewrite !length_app. simpl List.length.
  unfold headerSize, deref. cbn [name value]. fold n v.
  rewrite toLowerAscii_size.
  repeat f_equal; lia.
Qed.

(** With shared buffers the iteration adds nothing to the store: it
    overwrites the caller's name with its lower-case form, and the element
    of [converted] uses the caller's two buffers. *)
Lemma convert_step_sharing (M0 M : Mem) (conv : list (addr * addr))
    (unc : Z) (h : compress.Header) :
  (List.length M0 <= List.length M)%nat ->
  valid_header M0 h = true ->
  convert_step Sharing (List.length M0) (M, conv, unc) h =
  Some (store M (compress.name h) (toLowerAscii (load M (compress.name h))),
        conv ++ [(compress.name h, compress.value h)],
        to_uint32 (unc + headerSize (deref M h))).
Proof.
  intros Hle Hv0. pose proof Hv0 as Hc. unfold valid_header in Hc.
  pose proof (valid_header_le M0 M h Hle Hv0) as Hv.
  apply valid_header_lt in Hv. destruct Hv as [Hn Hv].
  unfold convert_step, copy_string. rewrite Hc.
  rewrite counter_update, load_store_same by assumption.
  unfold headerSize, deref. cbn [name value].
  rewrite toLowerAscii_size.
  destruct (Nat.eq_dec (compress.name h) (compress.value h)) as [He|Hne].
  - rewrite <- He, load_store_same, toLowerAscii_size by assumption.
    reflexivity.
  - now rewrite load_store_other.
Qed.

Lemma evolves_store_lower (M : Mem) (p : addr) :
  evolves Sharing M (store M p (toLowerAscii (load M p))).
Proof.
  split; [rewrite store_length; lia|].
  intros q Hq. simpl.
  destruct (Nat.eq_dec p q) as [->|Hne].
  - right. now apply load_store_same.
  - left. now apply load_store_other.
Qed.

Lemma evolves_app (M ext : Mem) : evolves Owning M (M ++ ext).
Proof.
  split; [rewrite length_app; lia|].
  intros q Hq. simpl. now apply load_app_l.
Qed.

(** One iteration, for either policy: the store evolves, the new element
    of [converted] reads as the lower-cased name and as the value, up to
    the policy, and the counter grows by the size of the header. *)
Lemma convert_step_spec (policy : CopyPolicy) (M0 M : Mem)
    (conv : list (addr * addr)) (unc : Z) (h : compress.Header) :
  (List.length M0 <= List.length M)%nat ->
  valid_header M0 h = true ->
  exists M1 a b,
    convert_step policy (List.length M0) (M, conv, unc) h
    = Some (M1, conv ++ [(a, b)], to_uint32 (unc + headerSize (deref M h)))
    /\ evolves policy M M1
    /\ (a < List.length M1)%nat /\ (b < List.length M1)%nat
    /\ load M1 a = toLowerAscii (load M (compress.name h))
    /\ same_up_to policy (load M (compress.value h)) (load M1 b).
Proof.
  intros Hle Hv0. pose proof (valid_header_le M0 M h Hle Hv0) as Hv.
  pose proof (proj1 (valid_header_lt M h) Hv) as [Hn Hvl].
  destruct policy.
  - rewrite (convert_step_owning M0 M conv unc h Hle Hv0).
    do 3 eexists. split; [reflexivity|].
    split; [apply evolves_app|].
    rewrite length_app. simpl List.length.
    split; [lia|]. split; [lia|]. split.
    + now rewrite load_app_r.
    + simpl. now rewrite load_app_r.
  - rewrite (convert_step_sharing M0 M conv unc h Hle Hv0).
    do 3 eexists. split; [reflexivity|].
    split; [apply evolves_store_lower|].
    rewrite store_length. split; [lia|]. split; [lia|]. split.
    + now apply load_store_same.
    + apply (proj2 (evolves_store_lower M (compress.name h))). exact Hvl.
Qed.

(** *** The conversion loop of encode *)

Lemma headerSize_evolves (policy : CopyPolicy) (M M1 : Mem)
    (h : compress.Header) :
  evolves policy M M1 -> valid_header M h = true ->
  headerSize (deref M1 h) = headerSize (deref M h).
Proof.
  intros [_ H] Hv. apply valid_header_lt in Hv. destruct Hv as [Hn Hv].
  unfold headerSize, deref. cbn [name value].
  now rewrite (same_up_to_size policy _ _ (H _ Hn)),
              (same_up_to_size policy _ _ (H _ Hv)).
Qed.

Lemma uncompressedSum_evolves (policy : CopyPolicy) (M M1 : Mem)
    (hs : list compress.Header) :
  evolves policy M M1 -> valid_headers M hs = true ->
  uncompressedSum (map (deref M1) hs) = uncompressedSum (map (deref M) hs).
Proof.
  intros He. induction hs as [|h r IH]; [reflexivity|].
  simpl. intros Hv. apply andb_true_iff in Hv. destruct Hv as [Hh Hr].
  now rewrite (headerSize_evolves policy M M1 h He Hh), (IH Hr).
Qed.

(** The loop on a list whose pointers are in the store: it ends; the
    store has evolved; [converted] has received, in order, one element
    per header, which reads as the lower-cased name and as the value up
    to the policy; the counter is the reduction of the exact sum. *)
Lemma convert_from_spec (policy : CopyPolicy) (M0 : Mem)
    (hs : list compress.Header) :
  forall (M : Mem) (conv : list (addr * addr)) (unc : Z),
  (List.length M0 <= List.length M)%nat ->
  valid_headers M0 hs = true ->
  exists M' new,
    convert_from policy (List.length M0) (M, conv, unc) hs
    = Some (M', conv ++ new,
            match hs with
            | [] => unc
            | _ => to_uint32 (unc + uncompressedSum (map (deref M) hs))
            end)
    /\ evolves policy M M'
    /\ Forall2 (reads_as policy M M') new hs.
Proof.
  induction hs as [|h r IH]; intros M conv unc Hle Hv0; cbn [convert_from].
  - exists M, []. rewrite app_nil_r. split; [reflexivity|].
    split; [apply evolves_refl|constructor].
  - simpl in Hv0. apply andb_true_iff in Hv0. destruct Hv0 as [Hh0 Hr0].
    pose proof (valid_headers_le M0 M r Hle Hr0) as Hr.
    destruct (convert_step_spec policy M0 M conv unc h Hle Hh0)
      as (M1 & a & b & Hstep & Hev & Ha & Hb & Hla & Hlb).
    rewrite Hstep.
    assert (Hle1 : (List.length M0 <= List.length M1)%nat)
      by (destruct Hev as [Hl1 _]; lia).
    destruct (IH M1 (conv ++ [(a, b)])
                 (to_uint32 (unc + headerSize (deref M h))) Hle1 Hr0)
      as (M' & new & Hfold & Hev' & Hreads).
    exists M', ((a, b) :: new). rewrite Hfold, <- app_assoc. simpl app.
    split; [|split].
    + f_equal. f_equal. destruct r as [|h' r'].
      { cbn [map]. rewrite uncompressedSum_cons. simpl uncompressedSum.
        now rewrite Z.add_0_r. }
      rewrite to_uint32_add_l.
      rewrite (uncompressedSum_evolves policy M M1 (h' :: r') Hev Hr).
      cbn [map]. rewrite (uncompressedSum_cons (deref M h)).
      f_equal. cbn [map]. lia.
    + eapply evolves_trans; eassumption.
    + constructor.
      * destruct Hev' as [Hl' H']. unfold reads_as. cbn [fst snd].
        split; [lia|]. split; [lia|]. split.
        -- apply (same_up_to_of_lower policy). rewrite <- Hla.
           apply H'. exact Ha.
        -- eapply same_up_to_trans; [exact Hlb|]. apply H'. exact Hb.
      * clear - Hreads Hev Hr.
        revert Hr. induction Hreads as [|p h' new' r' Hp _ IHr]; intros Hr.
        -- constructor.
        -- simpl in Hr. apply andb_true_iff in Hr. destruct Hr as [Hh' Hr'].
           constructor; [|now apply IHr].
           apply valid_header_lt in Hh'. destruct Hh' as [Hn' Hv'].
           destruct Hev as [_ Hev].
           destruct Hp as (H1 & H2 & H3 & H4). repeat split; try assumption.
           ++ rewrite H3. apply (same_up_to_lower policy). now apply Hev.
           ++ eapply same_up_to_trans; [apply Hev; exact Hv'|exact H4].
Qed.

(** Whenever the loop ends, the store has evolved, [converted] has
    received one element per header and the counter has stayed in
    range. *)
Lemma convert_from_some (policy : CopyPolicy) (M0 : Mem)
    (hs : list compress.Header) :
  forall (M M' : Mem) (conv conv' : list (addr * addr)) (unc unc' : Z),
  (List.length M0 <= List.length M)%nat ->
  convert_from policy (List.length M0) (M, conv, unc) hs
  = Some (M', conv', unc') ->
  valid_headers M0 hs = true /\
  evolves policy M M' /\
  (exists new, conv' = conv ++ new /\ List.length new = List.length hs) /\
  (0 <= unc < 2 ^ 32 -> 0 <= unc' < 2 ^ 32).
Proof.
  induction hs as [|h r IH]; intros M M' conv conv' unc unc' Hle H;
    cbn [convert_from] in H.
  - injection H as <- <- <-. split; [reflexivity|].
    split; [apply evolves_refl|].
    split; [|auto]. exists []. now rewrite app_nil_r.
  - destruct (valid_header M0 h) eqn:Hv.
    + destruct (convert_step_spec policy M0 M conv unc h Hle Hv)
        as (M1 & a & b & Hstep & Hev & _).
      rewrite Hstep in H. apply IH in H; [|destruct Hev as [Hl1 _]; lia].
      destruct H as (Hvr & Hev' & (new & -> & Hl) & Hrange).
      split; [simpl; now rewrite Hv, Hvr|].
      split; [eapply evolves_trans; eassumption|]. split.
      * exists ((a, b) :: new). rewrite <- app_assoc. simpl. auto.
      * intros _. apply Hrange. apply to_uint32_range.
    + rewrite (convert_step_fault policy M0 M conv unc h Hv) in H.
      discriminate.
Qed.

(** Whenever the whole loop ends, every pointer of the list was at one
    of the caller's strings. *)
Lemma convert_some (policy : CopyPolicy) (m m' : Mem)
    (hs : list compress.Header) (conv : list (addr * addr)) (unc : Z) :
  convert policy m hs = Some (m', conv, unc) ->
  valid_headers m hs = true /\
  evolves policy m m' /\
  List.length conv = List.length hs /\
  0 <= unc < 2 ^ 32.
Proof.
  unfold convert. intros H.
  apply (convert_from_some policy m hs) in H; [|apply Nat.le_refl].
  destruct H as (Hv & Hev & (new & -> & Hl) & Hr).
  split; [exact Hv|]. split; [exact Hev|]. split; [exact Hl|].
  apply Hr. lia.
Qed.

(** *** encode *)

Lemma encode_unfold (policy : CopyPolicy) (m : Mem) (c : HPACKCodec)
    (hs : list compress.Header) :
  encode policy m c hs
  = option_map (encode_return c) (convert policy m hs).
Proof.
  unfold encode, encode_return.
  destruct (convert policy m hs) as [[[m' conv] unc]|]; [|reflexivity].
  cbn [option_map fst snd].
  destruct (HPACKEncoder_encode _ _ _) as [enc' buf]. reflexivity.
Qed.

Lemma encode_some (policy : CopyPolicy) (m : Mem) (c : HPACKCodec)
    (hs : list compress.Header) (ret : Mem * HPACKCodec * option IOBuf) :
  encode policy m c hs = Some ret ->
  exists st, convert policy m hs = Some st /\ ret = encode_return c st.
Proof.
  rewrite encode_unfold.
  destruct (convert policy m hs) as [st|]; [|discriminate].
  intros H. injection H as <-. eauto.
Qed.

Lemma encode_engine_input_unfold (policy : CopyPolicy) (m : Mem)
    (hs : list compress.Header) :
  encode_engine_input policy m hs
  = option_map (fun st => map (read_header (fst (fst st))) (snd (fst st)))
               (convert policy m hs).
Proof.
  unfold encode_engine_input.
  now destruct (convert policy m hs) as [[[m' conv] unc]|].
Qed.

(** [convert] on a list whose pointers are in the store. *)
Lemma convert_valid (policy : CopyPolicy) (m : Mem)
    (hs : list compress.Header) :
  valid_headers m hs = true ->
  exists m' conv,
    convert policy m hs
    = Some (m', conv, to_uint32 (uncompressedSum (map (deref m) hs)))
    /\ evolves policy m m'
    /\ Forall2 (reads_as policy m m') conv hs.
Proof.
  intros Hv. unfold convert.
  destruct (convert_from_spec policy m hs m [] 0 (Nat.le_refl _) Hv)
    as (m' & conv & Hf & Hev & Hr).
  exists m', conv. split; [|auto].
  rewrite Hf. simpl app. do 2 f_equal.
  destruct hs; reflexivity.
Qed.

(** What the engine receives for such a list: at each position the
    lower-cased name, and the value up to the policy. *)
Lemma engine_input_spec (policy : CopyPolicy) (m : Mem)
    (hs : list compress.Header) :
  valid_headers m hs = true ->
  exists input,
    encode_engine_input policy m hs = Some input /\
    Forall2 (fun x h =>
               name x = toLowerAscii (load m (compress.name h)) /\
               same_up_to policy (load m (compress.value h)) (value x))
            input hs.
Proof.
  intros Hv. rewrite encode_engine_input_unfold.
  destruct (convert_valid policy m hs Hv) as (m' & conv & -> & _ & Hr).
  cbn [option_map fst snd]. eexists. split; [reflexivity|].
  clear Hv.
  induction Hr as [|p h conv' hs' (_ & _ & Hn & Hvl) _ IH]; simpl;
    [constructor|].
  constructor; [simpl; auto|exact IH].
Qed.

(** With own buffers the engine receives the list of normalized
    headers. *)
Lemma encode_engine_input_owning (m : Mem) (hs : list compress.Header) :
  valid_headers m hs = true ->
  encode_engine_input Owning m hs = Some (map normalize (map (deref m) hs)).
Proof.
  intros Hv. destruct (engine_input_spec Owning m hs Hv) as (input & -> & H).
  f_equal. clear Hv.
  induction H as [|x h input' hs' [Hn Hvl] _ IH]; [reflexivity|].
  cbn [map]. rewrite IH. f_equal.
  destruct x as [n v]. simpl in Hn, Hvl. subst.
  reflexivity.
Qed.

(** [encode] on a list whose pointers are in the store returns. *)
Lemma encode_valid (policy : CopyPolicy) (m : Mem) (c : HPACKCodec)
    (hs : list compress.Header) :
  valid_headers m hs = true ->
  exists m' conv,
    convert policy m hs
    = Some (m', conv, to_uint32 (uncompressedSum (map (deref m) hs))) /\
    encode policy m c hs
    = Some (encode_return c
              (m', conv, to_uint32 (uncompressedSum (map (deref m) hs)))).
Proof.
  intros Hv. destruct (convert_valid policy m hs Hv) as (m' & conv & Hc & _).
  exists m', conv. split; [exact Hc|]. now rewrite encode_unfold, Hc.
Qed.

(** [encode] returns exactly on the lists whose pointers are at the
    caller's strings. *)
Lemma encode_returns_iff_valid (policy : CopyPolicy) (m : Mem)
    (c : HPACKCodec) (hs : list compress.Header) :
  (exists ret, encode policy m c hs = Some ret) <-> valid_headers m hs = true.
Proof.
  split.
  - intros [ret H]. apply encode_some in H.
    destruct H as ([[m' conv] unc] & Hc & _).
    now apply convert_some in Hc.
  - intros Hv. destruct (encode_valid policy m c hs Hv) as (m' & conv & _ & H).
    eauto.
Qed.

(** *** The conversion loop of decode *)

Lemma skipn_nth_error {A : Type} (l : list A) (n : nat) (x : A) :
  nth_error l n = Some x -> skipn n l = x :: skipn (S n) l.
Proof.
  revert n. induction l as [|y l IH]; intros [|n] H; simpl in *;
    try discriminate.
  - now injection H as ->.
  - now apply IH.
Qed.

(** With 2^32 decoded headers or more the counter wraps before it
    reaches the size: the loop never ends. *)
Lemma decode_loop_diverges (fuel : nat) (hs : list HPACKHeader) :
  forall (i : Z) (out : compress.HeaderPieceList) (unc : Z),
  2 ^ 32 <= Z.of_nat (List.length hs) -> 0 <= i < 2 ^ 32 ->
  decode_loop fuel hs i out unc = None.
Proof.
  induction fuel as [|fuel IH]; intros i out unc Hlen Hi; simpl;
    [reflexivity|].
  destruct (i <? Z.of_nat (List.length hs)) eqn:Hlt.
  - destruct (nth_error hs (Z.to_nat i)); [|reflexivity].
    apply IH; [assumption|]. apply to_uint32_range.
  - apply Z.ltb_ge in Hlt. lia.
Qed.

(** When the loop ends, it has appended the pieces of the headers from
    index [i] on, in order, and added their sizes to the counter. *)
Lemma decode_loop_sound (fuel : nat) (hs : list HPACKHeader) :
  forall (i : Z) (out : compress.HeaderPieceList) (unc : Z)
         (r : compress.HeaderPieceList * Z),
  Z.of_nat (List.length hs) < 2 ^ 32 ->
  0 <= i <= Z.of_nat (List.length hs) ->
  0 <= unc < 2 ^ 32 ->
  decode_loop fuel hs i out unc = Some r ->
  r = (out ++ pieces_of (skipn (Z.to_nat i) hs),
       to_uint32 (unc + uncompressedSum (skipn (Z.to_nat i) hs))).
Proof.
  induction fuel as [|fuel IH]; intros i out unc r Hlen Hi Hu H; simpl in H;
    [discriminate|].
  destruct (i <? Z.of_nat (List.length hs)) eqn:Hlt.
  - apply Z.ltb_lt in Hlt.
    destruct (nth_error hs (Z.to_nat i)) as [h|] eqn:Hnth; [|discriminate].
    assert (Hincr : uint32_incr i = i + 1).
    { unfold uint32_incr. apply to_uint32_small. lia. }
    rewrite Hincr, counter_update in H.
    apply IH in H; try lia; [|apply to_uint32_range].
    rewrite (skipn_nth_error _ _ _ Hnth).
    replace (S (Z.to_nat i)) with (Z.to_nat (i + 1)) by lia.
    rewrite H. rewrite <- !app_assoc. cbn [pieces_of flat_map app].
    f_equal. rewrite to_uint32_add_l, uncompressedSum_cons.
    unfold headerSize. f_equal. lia.
  - apply Z.ltb_ge in Hlt. injection H as <-.
    assert (Hi' : Z.to_nat i = List.length hs) by lia.
    rewrite Hi', skipn_all. simpl.
    rewrite app_nil_r, Z.add_0_r, to_uint32_small; auto.
Qed.

(** With fewer than 2^32 decoded headers the loop ends, within as many
    tests of its condition as there are headers left, plus one. *)
Lemma decode_loop_terminates (fuel : nat) (hs : list HPACKHeader) :
  forall (i : Z) (out : compress.HeaderPieceList) (unc : Z),
  Z.of_nat (List.length hs) < 2 ^ 32 ->
  0 <= i <= Z.of_nat (List.length hs) ->
  (List.length hs - Z.to_nat i < fuel)%nat ->
  exists r, decode_loop fuel hs i out unc = Some r.
Proof.
  induction fuel as [|fuel IH]; intros i out unc Hlen Hi Hf; [lia|].
  simpl.
  destruct (i <? Z.of_nat (List.length hs)) eqn:Hlt.
  - apply Z.ltb_lt in Hlt.
    destruct (nth_error hs (Z.to_nat i)) as [h|] eqn:Hnth.
    + assert (Hincr : uint32_incr i = i + 1).
      { unfold uint32_incr. apply to_uint32_small. lia. }
      rewrite Hincr. apply IH; lia.
    + apply nth_error_None in Hnth. lia.
  - eauto.
Qed.

(** The loop as [decode] starts it. *)
Lemma decode_loop_run (fuel : nat) (hs : list HPACKHeader) :
  Z.of_nat (List.length hs) < 2 ^ 32 ->
  (List.length hs < fuel)%nat ->
  decode_loop fuel hs 0 [] 0
  = Some (pieces_of hs, to_uint32 (uncompressedSum hs)).
Proof.
  intros Hlen Hf.
  destruct (decode_loop_terminates fuel hs 0 [] 0) as [r Hr]; try lia.
  rewrite Hr. f_equal.
  apply decode_loop_sound in Hr; try lia. exact Hr.
Qed.

Lemma decode_loop_some (fuel : nat) (hs : list HPACKHeader)
    (r : compress.HeaderPieceList * Z) :
  decode_loop fuel hs 0 [] 0 = Some r ->
  Z.of_nat (List.length hs) < 2 ^ 32 /\
  r = (pieces_of hs, to_uint32 (uncompressedSum hs)).
Proof.
  intros H.
  destruct (Z_lt_le_dec (Z.of_nat (List.length hs)) (2 ^ 32)) as [Hlt|Hge].
  - split; [assumption|].
    apply decode_loop_sound in H; try lia. exact H.
  - rewrite decode_loop_diverges in H by lia. discriminate.
Qed.

Lemma decode_on_error (fuel : nat) (c : HPACKCodec) (cursor : Cursor)
    (length : Z) :
  hasError (call_decoder (decoder_call c cursor length)) = true ->
  decode fuel c cursor length = Some (decode_failure c cursor length).
Proof.
  unfold decode, decode_failure, decoder_call, classify,
    call_decoder, call_cursor, call_headers.
  destruct (HPACKDecoder_decode _ _ _ _) as [[[dec' cursor'] consumed] hs].
  cbn [fst snd]. intros ->.
  now destruct (HPACKDecoder.Error_eq_dec _ _).
Qed.

Lemma decode_on_success (fuel : nat) (c : HPACKCodec) (cursor : Cursor)
    (length : Z) :
  hasError (call_decoder (decoder_call c cursor length)) = false ->
  Z.of_nat (List.length (call_headers (decoder_call c cursor length))) < 2 ^ 32 ->
  (List.length (call_headers (decoder_call c cursor length)) < fuel)%nat ->
  decode fuel c cursor length = Some (decode_success c cursor length).
Proof.
  unfold decode, decode_success, decoder_call,
    call_decoder, call_cursor, call_headers, call_consumed.
  destruct (HPACKDecoder_decode _ _ _ _) as [[[dec' cursor'] consumed] hs].
  cbn [fst snd]. intros -> Hlen Hf.
  now rewrite decode_loop_run.
Qed.

(** Every return of [decode] is one of the two. *)
Lemma decode_inv (fuel : nat) (c : HPACKCodec) (cursor : Cursor)
    (length : Z) (ret : DecodeReturn) :
  decode fuel c cursor length = Some ret ->
  (hasError (call_decoder (decoder_call c cursor length)) = true /\
   ret = decode_failure c cursor length)
  \/
  (hasError (call_decoder (decoder_call c cursor length)) = false /\
   Z.of_nat (List.length (call_headers (decoder_call c cursor length))) < 2 ^ 32 /\
   ret = decode_success c cursor length).
Proof.
  intros H.
  destruct (hasError (call_decoder (decoder_call c cursor length))) eqn:He.
  - left. split; [reflexivity|].
    rewrite (decode_on_error fuel) in H by assumption. congruence.
  - right. split; [reflexivity|].
    revert H He.
    unfold decode, decode_success, decoder_call,
      call_decoder, call_cursor, call_headers, call_consumed.
    destruct (HPACKDecoder_decode _ _ _ _) as [[[dec' cursor'] consumed] hs].
    cbn [fst snd]. intros H He. rewrite He in H.
    destruct (decode_loop fuel hs 0 [] 0) as [[out unc]|] eqn:Hl;
      [|discriminate].
    apply decode_loop_some in Hl. destruct Hl as [Hlen Hr].
    injection Hr as -> ->. split; [assumption|]. congruence.
Qed.

End CodecFacts.

Section Properties.

Context {E : HPACKEngine}.

(** C1.  When the engine reports an error after the decoder has run,
    [decode] returns an error, whatever the fuel: [HEADERS_TOO_LARGE]
    exactly when the engine's error is its headers-too-large error,
    [BAD_ENCODING] for every other error; the value returned has no piece
    list and no count of bytes consumed. *)
Theorem decode_error_classification (fuel : nat) (c : HPACKCodec)
    (cursor : Cursor) (length : Z) :
  hasError (call_decoder (decoder_call c cursor length)) = true ->
  exists c' cursor' kind,
    decode fuel c cursor length = Some (c', cursor', Err kind) /\
    (kind = HEADERS_TOO_LARGE <->
     getError (call_decoder (decoder_call c cursor length))
     = HPACKDecoder.HEADERS_TOO_LARGE) /\
    (kind = BAD_ENCODING <->
     getError (call_decoder (decoder_call c cursor length))
     <> HPACKDecoder.HEADERS_TOO_LARGE) /\
    result_headers (Err kind) = None /\
    result_bytesConsumed (Err kind) = None.
Proof.
  intros He.
  rewrite (decode_on_error fuel c cursor length He).
  unfold decode_failure. do 3 eexists. split; [reflexivity|].
  unfold classify.
  destruct (HPACKDecoder.Error_eq_dec _ _) as [Heq|Hne].
  - repeat split; intros; try assumption; try reflexivity;
      try discriminate; contradiction.
  - repeat split; intros; try assumption; try reflexivity;
      try discriminate; contradiction.
Qed.

Lemma encode_roles (policy : CopyPolicy) (m : Mem) (c : HPACKCodec)
    (hs : list compress.Header) (ret : Mem * HPACKCodec * option IOBuf) :
  encode policy m c hs = Some ret ->
  enc_msgType (encoder_ (snd (fst ret))) = enc_msgType (encoder_ c)
  /\ dec_msgType (decoder_ (snd (fst ret))) = dec_msgType (decoder_ c).
Proof.
  intros H. apply encode_some in H. destruct H as (st & _ & ->).
  unfold encode_return. cbn [fst snd encoder_ decoder_].
  unfold HPACKEncoder_encode.
  destruct (engine_encode _ _ _ _ _) as [t' buf]. split; reflexivity.
Qed.

Lemma decode_roles (fuel : nat) (c : HPACKCodec) (cursor : Cursor)
    (length : Z) (ret : DecodeReturn) :
  decode fuel c cursor length = Some ret ->
  enc_msgType (encoder_ (fst (fst ret))) = enc_msgType (encoder_ c)
  /\ dec_msgType (decoder_ (fst (fst ret))) = dec_msgType (decoder_ c).
Proof.
  intros H.
  assert (Hd : dec_msgType (call_decoder (decoder_call c cursor length))
               = dec_msgType (decoder_ c)).
  { unfold decoder_call, HPACKDecoder_decode, call_decoder.
    destruct (engine_decode _ _ _ _ _) as [[[t' cursor'] consumed] hs].
    reflexivity. }
  apply decode_inv in H. destruct H as [[_ ->]|(_ & _ & ->)].
  - unfold decode_failure. cbn [fst snd encoder_ decoder_]. auto.
  - unfold decode_success. cbn [fst snd encoder_ decoder_]. auto.
Qed.

Lemma run_calls_roles (policy : CopyPolicy) (fuel : nat)
    (calls : list Call) :
  forall (st st' : Mem * HPACKCodec),
  run_calls policy fuel st calls = Some st' ->
  enc_msgType (encoder_ (snd st')) = enc_msgType (encoder_ (snd st))
  /\ dec_msgType (decoder_ (snd st')) = dec_msgType (decoder_ (snd st)).
Proof.
  induction calls as [|call rest IH]; intros st st' H; simpl in H.
  - injection H as <-. auto.
  - destruct (run_call policy fuel st call) as [st1|] eqn:H1; [|discriminate].
    apply IH in H. destruct H as [He Hd]. rewrite He, Hd. clear He Hd IH.
    destruct call as [hs|cursor length]; simpl in H1.
    + destruct (encode policy (fst st) (snd st) hs) as [ret|] eqn:H2;
        [|discriminate].
      injection H1 as <-. now apply encode_roles in H2.
    + destruct (decode fuel (snd st) cursor length) as [ret|] eqn:H2;
        [|discriminate].
      injection H1 as <-. cbn [snd]. now apply decode_roles in H2.
Qed.

(** C2.  Constructed with DOWNSTREAM the adapter has a decoder in the
    request role and an encoder in the response role; constructed with
    UPSTREAM, a decoder in the response role and an encoder in the request
    role.  The roles are those of the objects the constructor builds from
    the direction, and no sequence of encode and decode calls changes
    them. *)
Theorem role_binding :
  (dec_msgType (decoder_ (new_HPACKCodec DOWNSTREAM)) = HPACK.REQ /\
   enc_msgType (encoder_ (new_HPACKCodec DOWNSTREAM)) = HPACK.RESP) /\
  (dec_msgType (decoder_ (new_HPACKCodec UPSTREAM)) = HPACK.RESP /\
   enc_msgType (encoder_ (new_HPACKCodec UPSTREAM)) = HPACK.REQ) /\
  (forall direction,
     decoder_ (new_HPACKCodec direction)
     = new_HPACKDecoder (dec_msgType (decoder_ (new_HPACKCodec direction))) /\
     encoder_ (new_HPACKCodec direction)
     = new_HPACKEncoder (enc_msgType (encoder_ (new_HPACKCodec direction)))
                        true) /\
  (forall policy direction fuel m calls m' c',
     run_calls policy fuel (m, new_HPACKCodec direction) calls
     = Some (m', c') ->
     dec_msgType (decoder_ c')
     = dec_msgType (decoder_ (new_HPACKCodec direction)) /\
     enc_msgType (encoder_ c')
     = enc_msgType (encoder_ (new_HPACKCodec direction))).
Proof.
  repeat split; try (destruct direction; reflexivity).
  - apply run_calls_roles in H. now destruct H.
  - apply run_calls_roles in H. now destruct H.
Qed.

Lemma encode_uncompressed (policy : CopyPolicy) (m : Mem) (c : HPACKCodec)
    (hs : list compress.Header) :
  valid_headers m hs = true ->
  exists m' c' buf,
    encode policy m c hs = Some (m', c', buf) /\
    uncompressed (encodedSize_ c')
    = to_uint32 (uncompressedSum (map (deref m) hs)).
Proof.
  intros Hv. destruct (encode_valid policy m c hs Hv) as (m' & conv & _ & ->).
  unfold encode_return. do 3 eexists. split; reflexivity.
Qed.

Lemma decode_ok_inv (fuel : nat) (c : HPACKCodec) (cursor : Cursor)
    (length : Z) (c' : HPACKCodec) (cursor' : Cursor)
    (r : HeaderDecodeResult) :
  decode fuel c cursor length = Some (c', cursor', Ok r) ->
  hasError (call_decoder (decoder_call c cursor length)) = false /\
  Z.of_nat (List.length (call_headers (decoder_call c cursor length))) < 2 ^ 32 /\
  (c', cursor', Ok r) = decode_success c cursor length.
Proof.
  intros H. apply decode_inv in H.
  destruct H as [[_ H]|H]; [|exact H].
  unfold decode_failure in H. discriminate.
Qed.

Lemma decode_err_inv (fuel : nat) (c : HPACKCodec) (cursor : Cursor)
    (length : Z) (c' : HPACKCodec) (cursor' : Cursor)
    (e : HeaderDecodeError) :
  decode fuel c cursor length = Some (c', cursor', Err e) ->
  hasError (call_decoder (decoder_call c cursor length)) = true /\
  (c', cursor', Err e) = decode_failure c cursor length.
Proof.
  intros H. apply decode_inv in H.
  destruct H as [H|(_ & _ & H)]; [exact H|].
  unfold decode_success in H. discriminate.
Qed.

(** Replaces the adapter, the cursor and the value of a successful return
    of [decode] by what [decode_success] says they are; likewise for an
    error return. *)
Ltac decode_succeeded H :=
  apply decode_ok_inv in H; destruct H as (_ & _ & H);
  unfold decode_success in H; injection H; clear H; intros; subst.

Ltac decode_failed H :=
  apply decode_err_inv in H; destruct H as (_ & H);
  unfold decode_failure in H; injection H; clear H; intros; subst.

(** C3, as the code has it.  The uncompressed size recorded by [encode],
    and by a [decode] that succeeds, is the sum over the headers of name
    length + value length + 2 reduced modulo 2^32, whatever the compressed
    size; it is that sum itself whenever the sum is below 2^32; for an
    empty header list [encode] records 0. *)
Theorem uncompressed_size_accounting :
  (forall policy m c hs,
     valid_headers m hs = true ->
     exists m' c' buf,
       encode policy m c hs = Some (m', c', buf) /\
       uncompressed (encodedSize_ c')
       = uncompressedSum (map (deref m) hs) mod 2 ^ 32 /\
       (uncompressedSum (map (deref m) hs) < 2 ^ 32 ->
        uncompressed (encodedSize_ c')
        = uncompressedSum (map (deref m) hs))) /\
  (forall fuel c cursor length c' cursor' r,
     decode fuel c cursor length = Some (c', cursor', Ok r) ->
     decodedHeaders_ c' = call_headers (decoder_call c cursor length) /\
     uncompressed (decodedSize_ c')
     = uncompressedSum (decodedHeaders_ c') mod 2 ^ 32 /\
     (uncompressedSum (decodedHeaders_ c') < 2 ^ 32 ->
      uncompressed (decodedSize_ c') = uncompressedSum (decodedHeaders_ c'))) /\
  (forall policy m c,
     exists m' c' buf,
       encode policy m c [] = Some (m', c', buf) /\
       uncompressed (encodedSize_ c') = 0).
Proof.
  split; [|split].
  - intros policy m c hs Hv.
    destruct (encode_uncompressed policy m c hs Hv)
      as (m' & c' & buf & He & Hu).
    exists m', c', buf. split; [exact He|]. rewrite Hu.
    split; [reflexivity|]. intros Hlt. apply to_uint32_small.
    split; [apply uncompressedSum_nonneg | assumption].
  - intros fuel c cursor length c' cursor' r H. decode_succeeded H.
    cbn [decodedHeaders_ decodedSize_ uncompressed].
    split; [reflexivity|]. split; [reflexivity|].
    intros Hlt. apply to_uint32_small.
    split; [apply uncompressedSum_nonneg | assumption].
  - intros policy m c.
    destruct (encode_uncompressed policy m c [] eq_refl)
      as (m' & c' & buf & He & Hu).
    exists m', c', buf. split; [exact He|exact Hu].
Qed.

Lemma pieces_of_length (hs : list HPACKHeader) :
  List.length (pieces_of hs) = (2 * List.length hs)%nat.
Proof. induction hs as [|h r IH]; simpl; [reflexivity|]. rewrite IH. lia. Qed.

Lemma pieces_of_nth (hs : list HPACKHeader) :
  forall (k : nat) (h : HPACKHeader),
  nth_error hs k = Some h ->
  nth_error (pieces_of hs) (2 * k) = Some (name_piece h true) /\
  nth_error (pieces_of hs) (2 * k + 1) = Some (value_piece h true).
Proof.
  induction hs as [|x r IH]; intros [|k] h H; simpl in H; try discriminate.
  - injection H as ->. split; reflexivity.
  - apply IH in H.
    replace (2 * S k)%nat with (S (S (2 * k))) by lia.
    replace (S (S (2 * k)) + 1)%nat with (S (S (2 * k + 1))) by lia.
    exact H.
Qed.

Lemma pieces_of_multiValued (hs : list HPACKHeader) :
  Forall (fun p => compress.multiValued p = true) (pieces_of hs).
Proof.
  induction hs as [|h r IH]; simpl; repeat constructor. exact IH.
Qed.

(** C4.  After a successful [decode] in which the decoder produced the
    headers [hs], the piece list returned has twice as many entries as
    [hs]; the header at index [k] gives the pieces at indices [2k] (its
    name) and [2k+1] (its value), so order is kept and equal names stay
    apart; every piece is multi-valued. *)
Theorem piece_list_shape (fuel : nat) (c : HPACKCodec) (cursor : Cursor)
    (length : Z) (c' : HPACKCodec) (cursor' : Cursor)
    (r : HeaderDecodeResult) :
  decode fuel c cursor length = Some (c', cursor', Ok r) ->
  decodedHeaders_ c' = call_headers (decoder_call c cursor length) /\
  headers r = pieces_of (decodedHeaders_ c') /\
  List.length (headers r) = (2 * List.length (decodedHeaders_ c'))%nat /\
  (forall k h,
     nth_error (decodedHeaders_ c') k = Some h ->
     nth_error (headers r) (2 * k)
     = Some (compress.mkHeaderPiece (name h) (size (name h)) false true) /\
     nth_error (headers r) (2 * k + 1)
     = Some (compress.mkHeaderPiece (value h) (size (value h)) false true)) /\
  Forall (fun p => compress.multiValued p = true) (headers r).
Proof.
  intros H. decode_succeeded H. cbn [decodedHeaders_ headers].
  split; [reflexivity|]. split; [reflexivity|].
  split; [apply pieces_of_length|].
  split; [apply pieces_of_nth | apply pieces_of_multiValued].
Qed.

Lemma decode_with_scratch (fuel : nat) (c : HPACKCodec)
    (out : compress.HeaderPieceList) (decoded : list HPACKHeader)
    (cursor : Cursor) (length : Z) :
  decode fuel (with_scratch c out decoded) cursor length
  = decode fuel c cursor length.
Proof. reflexivity. Qed.

(** C6.  In two decode calls in sequence on one adapter, the second,
    when it succeeds, returns exactly the pieces of the headers the
    decoder produced in the second call, starting from an empty list;
    the adapter's piece list is that list; and the second call gives the
    same whatever the two scratch lists held when it started. *)
Theorem decode_reuse (fuel1 fuel2 : nat) (c c1 c2 : HPACKCodec)
    (cursor1 cursor1' cursor2 cursor2' : Cursor) (length1 length2 : Z)
    (r1 : Result HeaderDecodeResult HeaderDecodeError)
    (r2 : HeaderDecodeResult) :
  decode fuel1 c cursor1 length1 = Some (c1, cursor1', r1) ->
  decode fuel2 c1 cursor2 length2 = Some (c2, cursor2', Ok r2) ->
  headers r2
  = pieces_of (call_headers
                 (HPACKDecoder_decode (decoder_ c1) cursor2 length2 [])) /\
  outHeaders_ c2 = headers r2 /\
  decodedHeaders_ c2
  = call_headers (HPACKDecoder_decode (decoder_ c1) cursor2 length2 []) /\
  (forall out decoded,
     decode fuel2 (with_scratch c1 out decoded) cursor2 length2
     = Some (c2, cursor2', Ok r2)).
Proof.
  intros _ H2. split; [|split; [|split]].
  - decode_succeeded H2. reflexivity.
  - decode_succeeded H2. reflexivity.
  - decode_succeeded H2. reflexivity.
  - intros out decoded. now rewrite decode_with_scratch.
Qed.




(** C10.  When [decode] returns an error, the decode size tuple of the
    adapter is what it was before the call; the recorder, if one is
    attached, has received one more event, the decode error, and no
    decode size event. *)
Theorem decode_error_keeps_sizes (fuel : nat) (c : HPACKCodec)
    (cursor : Cursor) (length : Z) (c' : HPACKCodec) (cursor' : Cursor)
    (e : HeaderDecodeError) :
  decode fuel c cursor length = Some (c', cursor', Err e) ->
  decodedSize_ c' = decodedSize_ c /\
  stats_ c'
  = match stats_ c with
    | Some events =>
      Some (events ++ [HeaderCodec.recordDecodeError HeaderCodec.HPACK])
    | None => None
    end.
Proof.
  intros H. decode_failed H.
  cbn [decodedSize_ stats_]. split; reflexivity.
Qed.

End Properties.

(* ------------------------------------------------------------------ *)
(** ** Further properties of the adapter *)

Section MoreProperties.

Context {E : HPACKEngine}.

(** A successful return of [decode] is [decode_success]. *)
Ltac success_case H :=
  apply decode_ok_inv in H; destruct H as (_ & _ & H);
  unfold decode_success in H; injection H; clear H; intros; subst.

(** X1.  When the engine reports no error and has produced fewer than
    2^32 headers, [decode] returns success as soon as the fuel exceeds
    the number of headers, and every return of that call, with whatever
    fuel, is that same return. *)
Theorem decode_returns_below_limit (fuel : nat) (c : HPACKCodec)
    (cursor : Cursor) (length : Z) :
  hasError (call_decoder (decoder_call c cursor length)) = false ->
  Z.of_nat (List.length (call_headers (decoder_call c cursor length)))
  < 2 ^ 32 ->
  (List.length (call_headers (decoder_call c cursor length)) < fuel)%nat ->
  exists c' cursor' r,
    decode fuel c cursor length = Some (c', cursor', Ok r) /\
    forall fuel' ret,
      decode fuel' c cursor length = Some ret -> ret = (c', cursor', Ok r).
Proof.
  intros He Hlen Hf.
  rewrite (decode_on_success fuel c cursor length He Hlen Hf).
  unfold decode_success at 1. do 3 eexists. split; [reflexivity|].
  intros fuel' ret H. apply decode_inv in H.
  destruct H as [[He' _]|(_ & _ & ->)]; [congruence|reflexivity].
Qed.

(** X2.  When the engine reports no error and has produced 2^32 headers
    or more, the counter of the conversion loop wraps before it reaches
    the size: [decode] does not return, whatever the fuel. *)
Theorem decode_never_returns_at_limit (c : HPACKCodec) (cursor : Cursor)
    (length : Z) :
  hasError (call_decoder (decoder_call c cursor length)) = false ->
  2 ^ 32
  <= Z.of_nat (List.length (call_headers (decoder_call c cursor length))) ->
  forall fuel, decode fuel c cursor length = None.
Proof.
  intros He Hlen fuel.
  destruct (decode fuel c cursor length) as [ret|] eqn:H; [|reflexivity].
  apply decode_inv in H.
  destruct H as [[He' _]|(_ & Hlt & _)]; [congruence|lia].
Qed.

(** X3.  What [decode] returns follows the engine's error state: success
    only when the engine reports no error, an error only when it reports
    one; in both cases the adapter keeps the decoder as the call left
    it. *)
Theorem decode_outcome_follows_engine (fuel : nat) (c : HPACKCodec)
    (cursor : Cursor) (length : Z) (c' : HPACKCodec) (cursor' : Cursor)
    (r : Result HeaderDecodeResult HeaderDecodeError) :
  decode fuel c cursor length = Some (c', cursor', r) ->
  hasError (decoder_ c')
  = match r with Ok _ => false | Err _ => true end /\
  decoder_ c' = call_decoder (decoder_call c cursor length) /\
  cursor' = call_cursor (decoder_call c cursor length).
Proof.
  intros H. apply decode_inv in H.
  destruct H as [[He H]|(He & _ & H)].
  - unfold decode_failure in H. injection H as -> -> ->.
    cbn [decoder_]. auto.
  - unfold decode_success in H. injection H as -> -> ->.
    cbn [decoder_]. auto.
Qed.

(** X4.  After every return of [decode] the adapter's piece list is what
    the call returned and nothing else: the pieces of the result on
    success, the empty list on error.  The list of decoded headers is
    the one the engine filled from empty, also on error; the error log
    has one more line on error and is unchanged on success. *)
Theorem decode_leaves_its_result (fuel : nat) (c : HPACKCodec)
    (cursor : Cursor) (length : Z) (c' : HPACKCodec) (cursor' : Cursor)
    (r : Result HeaderDecodeResult HeaderDecodeError) :
  decode fuel c cursor length = Some (c', cursor', r) ->
  outHeaders_ c'
  = match r with Ok res => headers res | Err _ => [] end /\
  decodedHeaders_ c'
  = call_headers (HPACKDecoder_decode (decoder_ c) cursor length []) /\
  errorLog c'
  = match r with
    | Ok _ => errorLog c
    | Err _ =>
      errorLog c ++ [("decoder state: " ++ getTable (decoder_ c'))%string]
    end.
Proof.
  intros H. apply decode_inv in H.
  destruct H as [[_ H]|(_ & _ & H)].
  - unfold decode_failure in H. injection H as -> _ ->.
    cbn [outHeaders_ decodedHeaders_ errorLog decoder_]. auto.
  - unfold decode_success in H. injection H as -> _ ->.
    cbn [outHeaders_ decodedHeaders_ errorLog headers]. auto.
Qed.

Lemma sum_len_pieces_of (hs : list HPACKHeader) :
  sum_len (pieces_of hs) + Z.of_nat (List.length (pieces_of hs))
  = uncompressedSum hs.
Proof.
  induction hs as [|h r IH]; [reflexivity|].
  rewrite uncompressedSum_cons, <- IH. unfold headerSize.
  cbn [pieces_of flat_map app sum_len fold_right List.length
       name_piece value_piece compress.len].
  fold (pieces_of r). fold (sum_len (pieces_of r)). lia.
Qed.

Lemma pieces_of_len_owner (hs : list HPACKHeader) :
  Forall (fun p => compress.owner p = false /\
                   compress.len p = size (compress.str p)) (pieces_of hs).
Proof.
  induction hs as [|h r IH]; simpl; repeat constructor. exact IH.
Qed.

(** X5.  In the piece list of a successful [decode] no piece owns its
    text and every piece carries the length of its text; the
    uncompressed size recorded is the sum of those lengths plus the
    number of pieces, modulo 2^32. *)
Theorem pieces_account_for_size (fuel : nat) (c : HPACKCodec)
    (cursor : Cursor) (length : Z) (c' : HPACKCodec) (cursor' : Cursor)
    (r : HeaderDecodeResult) :
  decode fuel c cursor length = Some (c', cursor', Ok r) ->
  Forall (fun p => compress.owner p = false /\
                   compress.len p = size (compress.str p)) (headers r) /\
  uncompressed (decodedSize_ c')
  = (sum_len (headers r) + Z.of_nat (List.length (headers r))) mod 2 ^ 32.
Proof.
  intros H. success_case H.
  cbn [headers decodedSize_ uncompressed].
  split; [apply pieces_of_len_owner|].
  now rewrite sum_len_pieces_of.
Qed.




Lemma encode_stats (policy : CopyPolicy) (m : Mem) (c : HPACKCodec)
    (hs : list compress.Header) (ret : Mem * HPACKCodec * option IOBuf) :
  encode policy m c hs = Some ret ->
  stats_ (snd (fst ret))
  = record (stats_ c)
           (HeaderCodec.recordEncode HeaderCodec.HPACK
              (encodedSize_ (snd (fst ret)))).
Proof.
  intros H. apply encode_some in H. destruct H as (st & _ & ->). reflexivity.
Qed.

Lemma decode_stats (fuel : nat) (c : HPACKCodec) (cursor : Cursor)
    (length : Z) (c' : HPACKCodec) (cursor' : Cursor)
    (r : Result HeaderDecodeResult HeaderDecodeError) :
  decode fuel c cursor length = Some (c', cursor', r) ->
  stats_ c'
  = record (stats_ c)
           match r with
           | Ok _ =>
             HeaderCodec.recordDecode HeaderCodec.HPACK (decodedSize_ c')
           | Err _ => HeaderCodec.recordDecodeError HeaderCodec.HPACK
           end.
Proof.
  intros H. apply decode_inv in H.
  destruct H as [[_ H]|(_ & _ & H)].
  - unfold decode_failure in H. injection H as -> _ ->. reflexivity.
  - unfold decode_success in H. injection H as -> _ ->. reflexivity.
Qed.

Lemma run_call_stats (policy : CopyPolicy) (fuel : nat)
    (st st' : Mem * HPACKCodec) (call : Call) :
  run_call policy fuel st call = Some st' ->
  exists ev, stats_ (snd st') = record (stats_ (snd st)) ev.
Proof.
  destruct call as [hs|cursor length]; simpl; intros H.
  - destruct (encode policy (fst st) (snd st) hs) as [ret|] eqn:He;
      [|discriminate].
    injection H as <-. eexists. eapply encode_stats. exact He.
  - destruct (decode fuel (snd st) cursor length) as [[[c' cursor'] r]|] eqn:Hd;
      [|discriminate].
    injection H as <-. eexists. cbn [snd fst]. eapply decode_stats. exact Hd.
Qed.

(** X7.  Over any sequence of encode and decode calls that return, a
    recorder stays attached if it was and stays absent if it was: when
    attached it keeps the events it had and receives exactly one event
    per call. *)
Theorem recorder_gets_one_event_per_call (policy : CopyPolicy) (fuel : nat)
    (calls : list Call) :
  forall (st st' : Mem * HPACKCodec),
  run_calls policy fuel st calls = Some st' ->
  match stats_ (snd st) with
  | None => stats_ (snd st') = None
  | Some events =>
    exists new,
      stats_ (snd st') = Some (events ++ new) /\
      List.length new = List.length calls
  end.
Proof.
  induction calls as [|call rest IH]; intros st st' H; simpl in H.
  - injection H as <-. destruct (stats_ (snd st)) as [events|]; [|reflexivity].
    exists []. now rewrite app_nil_r.
  - destruct (run_call policy fuel st call) as [st1|] eqn:H1; [|discriminate].
    apply run_call_stats in H1. destruct H1 as [ev H1].
    apply IH in H. rewrite H1 in H.
    destruct (stats_ (snd st)) as [events|]; simpl in H; [|exact H].
    destruct H as (new & Hs & Hl).
    exists (ev :: new). rewrite Hs, <- app_assoc. simpl. auto.
Qed.

Lemma encode_evolves (policy : CopyPolicy) (m : Mem) (c : HPACKCodec)
    (hs : list compress.Header) (ret : Mem * HPACKCodec * option IOBuf) :
  encode policy m c hs = Some ret -> evolves policy m (fst (fst ret)).
Proof.
  intros H. apply encode_some in H. destruct H as ([[m' conv] unc] & Hc & ->).
  apply convert_some in Hc. apply Hc.
Qed.

Lemma run_calls_evolves (policy : CopyPolicy) (fuel : nat)
    (calls : list Call) :
  forall (st st' : Mem * HPACKCodec),
  run_calls policy fuel st calls = Some st' ->
  evolves policy (fst st) (fst st').
Proof.
  induction calls as [|call rest IH]; intros st st' H; simpl in H.
  - injection H as <-. apply evolves_refl.
  - destruct (run_call policy fuel st call) as [st1|] eqn:H1; [|discriminate].
    apply IH in H. eapply evolves_trans; [|exact H].
    destruct call as [hs|cursor length]; simpl in H1.
    + destruct (encode policy (fst st) (snd st) hs) as [ret|] eqn:He;
        [|discriminate].
      injection H1 as <-. eapply encode_evolves. exact He.
    + destruct (decode fuel (snd st) cursor length) as [ret|];
        [|discriminate].
      injection H1 as <-. apply evolves_refl.
Qed.

(** X8.  Over any sequence of encode and decode calls that return, the
    store never loses a string.  When copies have buffers of their own,
    every string that was in the store at the start reads at the end as
    it did at the start.  When copies share buffers, every such string
    reads at the end as it did at the start or as its ASCII-lowercase
    form. *)
Theorem calls_keep_caller_strings (policy : CopyPolicy) (fuel : nat)
    (calls : list Call) (st st' : Mem * HPACKCodec) :
  run_calls policy fuel st calls = Some st' ->
  (List.length (fst st) <= List.length (fst st'))%nat /\
  forall p, (p < List.length (fst st))%nat ->
    match policy with
    | Owning => load (fst st') p = load (fst st) p
    | Sharing =>
      load (fst st') p = load (fst st) p \/
      load (fst st') p = ascii_lowercase (load (fst st) p)
    end.
Proof.
  intros H. apply run_calls_evolves in H. destruct H as [Hl H].
  split; [exact Hl|]. intros p Hp. specialize (H p Hp).
  destruct policy; simpl in H; [exact H|].
  now rewrite <- toLowerAscii_ascii_lowercase.
Qed.

(** X9.  After any sequence of calls that return, encoding a list whose
    pointers were in the store at the start hands the engine the same
    names as it would have at the start, the ASCII-lowercase forms of the
    names the caller's strings held then; when copies have buffers of
    their own it hands over the same values too. *)
Theorem reencode_sees_same_headers (policy : CopyPolicy) (fuel : nat)
    (calls : list Call) (st st' : Mem * HPACKCodec)
    (hs : list compress.Header) :
  run_calls policy fuel st calls = Some st' ->
  valid_headers (fst st) hs = true ->
  exists input input',
    encode_engine_input policy (fst st) hs = Some input /\
    encode_engine_input policy (fst st') hs = Some input' /\
    map name input' = map name input /\
    map name input
    = map (fun h => ascii_lowercase (load (fst st) (compress.name h))) hs /\
    (policy = Owning -> input' = input).
Proof.
  intros H Hv. apply run_calls_evolves in H.
  assert (Hv' : valid_headers (fst st') hs = true)
    by (eapply valid_headers_le; [apply H|exact Hv]).
  destruct (engine_input_spec policy (fst st) hs Hv) as (input & Hi & Hs).
  destruct (engine_input_spec policy (fst st') hs Hv') as (input' & Hi' & Hs').
  exists input, input'. split; [exact Hi|]. split; [exact Hi'|].
  clear Hi Hi' Hv'. destruct H as [_ Hev].
  revert input' Hs' Hv.
  induction Hs as [|x h input0 hs0 [Hn Hvl] _ IH]; intros input' Hs' Hv;
    inversion Hs' as [|x' h' input0' hs0' [Hn' Hvl'] Hs0']; subst.
  - repeat split. 
  - simpl in Hv. apply andb_true_iff in Hv. destruct Hv as [Hh Hr].
    apply valid_header_lt in Hh. destruct Hh as [Hpn Hpv].
    destruct (IH _ Hs0' Hr) as (H1 & H2 & H3).
    cbn [map]. rewrite H1, H2.
    assert (Hname : name x' = name x).
    { rewrite Hn', Hn. apply (same_up_to_lower policy). now apply Hev. }
    split; [now rewrite Hname|].
    split; [now rewrite Hn, toLowerAscii_ascii_lowercase|].
    intros ->. rewrite (H3 eq_refl). f_equal.
    destruct x as [n v], x' as [n' v']. simpl in *.
    specialize (Hev _ Hpv). simpl in Hev. congruence.
Qed.

(** The calls of a list that are valid in a store are valid in every
    store that is at least as long. *)
Lemma calls_valid_le (m M : Mem) (calls : list Call) :
  (List.length m <= List.length M)%nat ->
  calls_valid m calls = true -> calls_valid M calls = true.
Proof.
  intros Hle. unfold calls_valid. rewrite !forallb_forall.
  intros H call Hin. specialize (H call Hin).
  destruct call; [|reflexivity]. eapply valid_headers_le; eauto.
Qed.

(** X10.  A sequence of encode calls whose lists have their pointers in
    the store returns, and leaves the decode side of the adapter as it
    was: the decoder, the decode sizes, the piece list a decode has
    returned, the decoded headers and the error log. *)
Theorem encodes_keep_decode_side (policy : CopyPolicy) (fuel : nat)
    (calls : list Call) :
  forall (st : Mem * HPACKCodec),
  forallb is_encode calls = true ->
  calls_valid (fst st) calls = true ->
  exists st',
    run_calls policy fuel st calls = Some st' /\
    decoder_ (snd st') = decoder_ (snd st) /\
    decodedSize_ (snd st') = decodedSize_ (snd st) /\
    outHeaders_ (snd st') = outHeaders_ (snd st) /\
    decodedHeaders_ (snd st') = decodedHeaders_ (snd st) /\
    errorLog (snd st') = errorLog (snd st).
Proof.
  induction calls as [|call rest IH]; intros st Hall Hval; simpl in Hall.
  - exists st. repeat split.
  - apply andb_true_iff in Hall. destruct Hall as [Hc Hr].
    destruct call as [hs|cursor length]; [|discriminate].
    simpl in Hval. apply andb_true_iff in Hval. destruct Hval as [Hv Hvr].
    destruct (encode_valid policy (fst st) (snd st) hs Hv)
      as (m' & conv & Hconv & He).
    cbn [run_calls run_call]. rewrite He.
    apply convert_some in Hconv.
    destruct Hconv as (_ & [Hl _] & _).
    destruct (IH (fst (encode_return (snd st)
                         (m', conv,
                          to_uint32
                            (uncompressedSum (map (deref (fst st)) hs)))))
                 Hr)
      as (st' & Hrun & Hd & Hs & Ho & Hh & Hlog).
    { unfold encode_return. cbn [fst snd].
      eapply calls_valid_le; [exact Hl|exact Hvr]. }
    exists st'. split; [exact Hrun|].
    rewrite Hd, Hs, Ho, Hh, Hlog. unfold encode_return. repeat split.
Qed.

Lemma decode_encode_side (fuel : nat) (c : HPACKCodec) (cursor : Cursor)
    (length : Z) (ret : DecodeReturn) :
  decode fuel c cursor length = Some ret ->
  encoder_ (fst (fst ret)) = encoder_ c /\
  encodedSize_ (fst (fst ret)) = encodedSize_ c /\
  encodeHeadroom_ (fst (fst ret)) = encodeHeadroom_ c.
Proof.
  intros H. apply decode_inv in H.
  destruct H as [[_ ->]|(_ & _ & ->)]; repeat split.
Qed.

(** X11.  A sequence of decode calls that return leaves the store and
    the encode side of the adapter as they were: the encoder, with its
    table, and the encode sizes. *)
Theorem decodes_keep_encode_side (policy : CopyPolicy) (fuel : nat)
    (calls : list Call) :
  forall (st st' : Mem * HPACKCodec),
  forallb is_decode calls = true ->
  run_calls policy fuel st calls = Some st' ->
  fst st' = fst st /\
  encoder_ (snd st') = encoder_ (snd st) /\
  encodedSize_ (snd st') = encodedSize_ (snd st).
Proof.
  induction calls as [|call rest IH]; intros st st' Hall H; simpl in *.
  - injection H as <-. repeat split.
  - apply andb_true_iff in Hall. destruct Hall as [Hc Hr].
    destruct call as [hs|cursor length]; [discriminate|].
    cbn [run_call] in H.
    destruct (decode fuel (snd st) cursor length) as [ret|] eqn:Hd;
      [|discriminate].
    apply (IH _ _ Hr) in H. destruct H as (Hm & He & Hs).
    apply decode_encode_side in Hd. destruct Hd as (He' & Hs' & _).
    cbn [fst snd] in *. rewrite Hm, He, Hs. auto.
Qed.

Lemma run_calls_headroom (policy : CopyPolicy) (fuel : nat)
    (calls : list Call) :
  forall (st st' : Mem * HPACKCodec),
  run_calls policy fuel st calls = Some st' ->
  encodeHeadroom_ (snd st') = encodeHeadroom_ (snd st) /\
  enc_huffman (encoder_ (snd st')) = enc_huffman (encoder_ (snd st)).
Proof.
  induction calls as [|call rest IH]; intros st st' H; simpl in H.
  - injection H as <-. auto.
  - destruct (run_call policy fuel st call) as [st1|] eqn:H1; [|discriminate].
    apply IH in H. destruct H as [Hh Hf]. rewrite Hh, Hf. clear Hh Hf IH.
    destruct call as [hs|cursor length]; simpl in H1.
    + destruct (encode policy (fst st) (snd st) hs) as [ret|] eqn:He;
        [|discriminate].
      injection H1 as <-. apply encode_some in He.
      destruct He as (s0 & _ & ->). unfold encode_return.
      cbn [fst snd encodeHeadroom_ encoder_].
      unfold HPACKEncoder_encode.
      destruct (engine_encode _ _ _ _ _) as [t' buf]. auto.
    + destruct (decode fuel (snd st) cursor length) as [ret|] eqn:H2;
        [|discriminate].
      injection H1 as <-. cbn [snd].
      apply decode_encode_side in H2. destruct H2 as (-> & _ & ->). auto.
Qed.

(** X12.  The encoder the constructor builds has Huffman coding on, for
    either direction, and no sequence of encode and decode calls turns it
    off; nor does any such sequence change the headroom passed to the
    engine. *)
Theorem huffman_and_headroom_stay (policy : CopyPolicy)
    (direction : TransportDirection) (fuel : nat) (m m' : Mem)
    (calls : list Call) (c' : HPACKCodec) :
  run_calls policy fuel (m, new_HPACKCodec direction) calls = Some (m', c') ->
  enc_huffman (encoder_ c') = true /\
  encodeHeadroom_ c' = encodeHeadroom_ (new_HPACKCodec direction).
Proof.
  intros H. apply run_calls_headroom in H. cbn [snd] in H.
  destruct H as [-> ->]. split; [|reflexivity].
  destruct direction; reflexivity.
Qed.

(** X13.  Round trip.  Let [input] be what [encode] hands the engine for
    a list of fewer than 2^32 headers whose pointers are in the store.
    If a decoder, on some block, reports no error and yields [input],
    then [decode] of that block returns, in order, for each element of
    [input] the piece of its name and the piece of its value; the names
    are the ASCII-lowercase forms of the caller's names, the values are
    the caller's values when copies have buffers of their own, and the
    uncompressed size [decode] records is the one [encode] records. *)
Theorem encode_decode_round_trip (policy : CopyPolicy) (fuel : nat)
    (m : Mem) (enc dec : HPACKCodec) (hs : list compress.Header)
    (cursor : Cursor) (length : Z) (input : list HPACKHeader) :
  valid_headers m hs = true ->
  encode_engine_input policy m hs = Some input ->
  hasError (call_decoder (decoder_call dec cursor length)) = false ->
  call_headers (decoder_call dec cursor length) = input ->
  Z.of_nat (List.length hs) < 2 ^ 32 ->
  (List.length hs < fuel)%nat ->
  exists dec' cursor' r m' enc' buf,
    decode fuel dec cursor length = Some (dec', cursor', Ok r) /\
    encode policy m enc hs = Some (m', enc', buf) /\
    map compress.str (headers r)
    = flat_map (fun x => [name x; value x]) input /\
    map name input
    = map (fun h => ascii_lowercase (load m (compress.name h))) hs /\
    (policy = Owning ->
     map value input = map (fun h => load m (compress.value h)) hs) /\
    uncompressed (decodedSize_ dec') = uncompressed (encodedSize_ enc').
Proof.
  intros Hv Hin He Hh Hlen Hf.
  destruct (engine_input_spec policy m hs Hv) as (input0 & Hin0 & Hs).
  assert (input0 = input) by congruence. subst input0.
  assert (Hl : List.length input = List.length hs)
    by (clear - Hs; induction Hs; simpl; congruence).
  rewrite <- Hh in Hl.
  rewrite (decode_on_success fuel dec cursor length He)
    by (rewrite Hl; assumption).
  destruct (encode_uncompressed policy m enc hs Hv)
    as (m' & enc' & buf & Henc & Hu).
  unfold decode_success. rewrite Hh.
  do 6 eexists. split; [reflexivity|]. split; [exact Henc|].
  cbn [headers decodedSize_ uncompressed]. rewrite Hu.
  split; [|split; [|split]].
  - clear. induction input as [|x r IH]; [reflexivity|].
    cbn [pieces_of flat_map map app]. f_equal. f_equal. exact IH.
  - clear - Hs. induction Hs as [|x h i0 h0 [Hn _] _ IH]; [reflexivity|].
    cbn [map]. now rewrite IH, Hn, toLowerAscii_ascii_lowercase.
  - intros ->. clear - Hs.
    induction Hs as [|x h i0 h0 [_ Hvl] _ IH]; [reflexivity|].
    cbn [map]. simpl in Hvl. now rewrite IH, Hvl.
  - f_equal. clear - Hs Hv.
    revert Hv. induction Hs as [|x h i0 h0 [Hn Hvl] _ IH]; intros Hv;
      [reflexivity|].
    simpl in Hv. apply andb_true_iff in Hv. destruct Hv as [_ Hr].
    cbn [map]. rewrite !uncompressedSum_cons, (IH Hr). f_equal.
    unfold headerSize, deref. cbn [name value].
    now rewrite Hn, toLowerAscii_size, (same_up_to_size policy _ _ Hvl).
Qed.

Lemma toLowerAsciiChar_not_upper (ch : ascii) :
  not_upper (toLowerAsciiChar ch) = true.
Proof.
  unfold not_upper.
  destruct (N.le_gt_cases 65 (N_of_ascii ch)) as [H1|H1];
    [destruct (N.le_gt_cases (N_of_ascii ch) 90) as [H2|H2]|].
  - rewrite toLowerAsciiChar_upper by lia.
    apply orb_true_iff. right. apply N.ltb_lt. lia.
  - rewrite toLowerAsciiChar_other by lia.
    apply orb_true_iff. right. now apply N.ltb_lt.
  - rewrite toLowerAsciiChar_other by lia.
    apply orb_true_iff. left. now apply N.ltb_lt.
Qed.

Lemma toLowerAscii_no_upper (s : string) : no_upper (toLowerAscii s) = true.
Proof.
  induction s as [|ch r IH]; simpl; [reflexivity|].
  now rewrite toLowerAsciiChar_not_upper, IH.
Qed.

Lemma no_upper_toLowerAscii (s : string) :
  no_upper s = true -> toLowerAscii s = s.
Proof.
  induction s as [|ch r IH]; simpl; [reflexivity|]. intros H.
  apply andb_true_iff in H. destruct H as [Hc Hr].
  rewrite (IH Hr). f_equal.
  apply toLowerAsciiChar_other.
  unfold not_upper in Hc. apply orb_true_iff in Hc.
  destruct Hc as [Hc|Hc]; apply N.ltb_lt in Hc; auto.
Qed.

(** With shared buffers [converted] holds the caller's own pointers, the
    store keeps its length, and a string that is the name of no header of
    the list is left as it was. *)
Lemma convert_from_sharing (M0 : Mem) (hs : list compress.Header) :
  forall (M M' : Mem) (conv conv' : list (addr * addr)) (unc unc' : Z),
  (List.length M0 <= List.length M)%nat ->
  convert_from Sharing (List.length M0) (M, conv, unc) hs
  = Some (M', conv', unc') ->
  conv' = conv ++ map (fun h => (compress.name h, compress.value h)) hs /\
  List.length M' = List.length M /\
  forall p, ~ In p (map compress.name hs) -> load M' p = load M p.
Proof.
  induction hs as [|h r IH]; intros M M' conv conv' unc unc' Hle H;
    cbn [convert_from] in H.
  - injection H as <- <- <-. rewrite app_nil_r. auto.
  - destruct (valid_header M0 h) eqn:Hv.
    + rewrite (convert_step_sharing M0 M conv unc h Hle Hv) in H.
      apply IH in H; [|now rewrite store_length].
      destruct H as (-> & Hl & Hp).
      rewrite store_length in Hl.
      split; [now rewrite <- app_assoc|]. split; [exact Hl|].
      intros p Hnot. simpl in Hnot.
      rewrite Hp by tauto. apply load_store_other. tauto.
    + rewrite (convert_step_fault Sharing M0 M conv unc h Hv) in H.
      discriminate.
Qed.

(** With shared buffers and names that hold no upper-case letter the loop
    leaves the store as it is. *)
Lemma convert_from_sharing_lower (M0 : Mem) (hs : list compress.Header) :
  forall (M M' : Mem) (conv conv' : list (addr * addr)) (unc unc' : Z),
  (List.length M0 <= List.length M)%nat ->
  forallb (fun h => no_upper (load M (compress.name h))) hs = true ->
  convert_from Sharing (List.length M0) (M, conv, unc) hs
  = Some (M', conv', unc') ->
  M' = M.
Proof.
  induction hs as [|h r IH]; intros M M' conv conv' unc unc' Hle Hl H;
    cbn [convert_from] in H.
  - now injection H as <- <- <-.
  - simpl in Hl. apply andb_true_iff in Hl. destruct Hl as [Hh Hr].
    destruct (valid_header M0 h) eqn:Hv.
    + rewrite (convert_step_sharing M0 M conv unc h Hle Hv) in H.
      rewrite (no_upper_toLowerAscii _ Hh), store_load_same in H.
      eapply IH; eassumption.
    + rewrite (convert_step_fault Sharing M0 M conv unc h Hv) in H.
      discriminate.
Qed.

(** X14.  For a list whose pointers are in the store, no name [encode]
    hands to the engine holds an upper-case ASCII letter, and each has
    the length of the caller's name; when the caller's names hold no
    upper-case ASCII letter, the engine is handed the caller's headers as
    they are. *)
Theorem engine_sees_lower_case_names (policy : CopyPolicy) (m : Mem)
    (hs : list compress.Header) :
  valid_headers m hs = true ->
  exists input,
    encode_engine_input policy m hs = Some input /\
    Forall (fun h => no_upper (name h) = true) input /\
    map (fun h => String.length (name h)) input
    = map (fun h => String.length (load m (compress.name h))) hs /\
    (forallb (fun h => no_upper (load m (compress.name h))) hs = true ->
     input = map (deref m) hs).
Proof.
  intros Hv.
  destruct (engine_input_spec policy m hs Hv) as (input & Hin & Hs).
  exists input. split; [exact Hin|]. split; [|split].
  - clear - Hs. induction Hs as [|x h i0 h0 [Hn _] _ IH]; constructor; auto.
    rewrite Hn. apply toLowerAscii_no_upper.
  - clear - Hs. induction Hs as [|x h i0 h0 [Hn _] _ IH]; [reflexivity|].
    cbn [map]. now rewrite IH, Hn, toLowerAscii_length.
  - intros Hlow. destruct policy.
    + clear - Hs Hlow. revert Hlow.
      induction Hs as [|x h i0 h0 [Hn Hvl] _ IH]; intros Hlow; [reflexivity|].
      simpl in Hlow. apply andb_true_iff in Hlow. destruct Hlow as [Hh Hr].
      cbn [map]. rewrite (IH Hr). f_equal.
      destruct x as [n v]. simpl in Hn, Hvl. subst. unfold deref.
      now rewrite (no_upper_toLowerAscii _ Hh).
    + rewrite encode_engine_input_unfold in Hin. unfold convert in Hin.
      destruct (convert_from Sharing (List.length m) (m, [], 0) hs)
        as [[[m' conv] unc]|] eqn:Hc; [|discriminate].
      pose proof (convert_from_sharing_lower m _ _ _ _ _ _ _
                    (Nat.le_refl _) Hlow Hc) as ->.
      apply (convert_from_sharing m) in Hc; [|apply Nat.le_refl].
      destruct Hc as (-> & _ & _).
      injection Hin as <-. cbn [fst snd app]. rewrite map_map. reflexivity.
Qed.

(** X15.  The uncompressed sizes the adapter records fit in 32 bits:
    after every [encode] that returns and after every successful
    [decode]. *)
Theorem uncompressed_sizes_fit_32_bits :
  (forall policy m c hs m' c' buf,
     encode policy m c hs = Some (m', c', buf) ->
     0 <= uncompressed (encodedSize_ c') < 2 ^ 32) /\
  (forall fuel c cursor length c' cursor' r,
     decode fuel c cursor length = Some (c', cursor', Ok r) ->
     0 <= uncompressed (decodedSize_ c') < 2 ^ 32).
Proof.
  split.
  - intros policy m c hs m' c' buf H.
    apply encode_some in H. destruct H as ([[m1 conv] unc] & Hc & H).
    unfold encode_return in H. injection H as _ -> _.
    cbn [encodedSize_ uncompressed snd].
    apply convert_some in Hc. apply Hc.
  - intros fuel c cursor length c' cursor' r H. success_case H.
    cbn [decodedSize_ uncompressed]. apply to_uint32_range.
Qed.

Lemma reads_as_sharing (m m' : Mem) (hs : list compress.Header) :
  Forall2 (reads_as Sharing m m')
          (map (fun h => (compress.name h, compress.value h)) hs) hs ->
  forall h, In h hs ->
            load m' (compress.name h)
            = toLowerAscii (load m (compress.name h)).
Proof.
  induction hs as [|x r IH]; intros H h Hin; [contradiction|].
  cbn [map] in H. inversion H as [|? ? ? ? (_ & _ & Hn & _) Hr]; subst.
  destruct Hin as [->|Hin]; [exact Hn|now apply IH].
Qed.

(** X16.  When copies share buffers, [encode] of a list whose pointers
    are in the store overwrites the caller's names: after the call every
    name of the list reads as the ASCII-lowercase form of what it read
    before; the store has as many strings as before, and a string that is
    the name of no header of the list reads as before. *)
Theorem shared_copies_lowercase_caller_names (m : Mem) (c : HPACKCodec)
    (hs : list compress.Header) :
  valid_headers m hs = true ->
  exists m' c' buf,
    encode Sharing m c hs = Some (m', c', buf) /\
    List.length m' = List.length m /\
    (forall h, In h hs ->
               load m' (compress.name h)
               = ascii_lowercase (load m (compress.name h))) /\
    (forall p, ~ In p (map compress.name hs) -> load m' p = load m p).
Proof.
  intros Hv.
  destruct (convert_valid Sharing m hs Hv) as (m' & conv & Hc & _ & Hr).
  rewrite encode_unfold, Hc. cbn [option_map]. unfold encode_return.
  cbn [fst snd]. do 3 eexists. split; [reflexivity|].
  unfold convert in Hc.
  destruct (convert_from_sharing m _ _ _ _ _ _ _ (Nat.le_refl _) Hc)
    as (-> & Hl & Hp).
  split; [exact Hl|]. split; [|exact Hp].
  intros h Hin. rewrite <- toLowerAscii_ascii_lowercase.
  now apply (reads_as_sharing m m' hs).
Qed.

(** X17.  What the engine is handed for a list whose pointers are in the
    store: as many headers as the list has, in its order; each name is
    the ASCII-lowercase form of the caller's name; each value is the
    caller's value when copies have buffers of their own, and, when they
    share buffers, whenever the value's string is the name of no header
    of the list. *)
Theorem engine_is_handed_lowercased_list (policy : CopyPolicy) (m : Mem)
    (hs : list compress.Header) :
  valid_headers m hs = true ->
  exists input,
    encode_engine_input policy m hs = Some input /\
    map name input
    = map (fun h => ascii_lowercase (load m (compress.name h))) hs /\
    (policy = Owning ->
     map value input = map (fun h => load m (compress.value h)) hs) /\
    (forall k x h,
       nth_error input k = Some x -> nth_error hs k = Some h ->
       ~ In (compress.value h) (map compress.name hs) ->
       value x = load m (compress.value h)).
Proof.
  intros Hv.
  destruct (engine_input_spec policy m hs Hv) as (input & Hin & Hs).
  exists input. split; [exact Hin|]. split; [|split].
  - clear - Hs. induction Hs as [|x h i0 h0 [Hn _] _ IH]; [reflexivity|].
    cbn [map]. now rewrite IH, Hn, toLowerAscii_ascii_lowercase.
  - intros ->. clear - Hs.
    induction Hs as [|x h i0 h0 [_ Hvl] _ IH]; [reflexivity|].
    cbn [map]. simpl in Hvl. now rewrite IH, Hvl.
  - destruct policy.
    + intros k x h Hx Hh _. clear - Hs Hx Hh. revert k Hx Hh.
      induction Hs as [|x0 h0 i0 hs0 [_ Hvl] _ IH]; intros [|k] Hx Hh;
        simpl in *; try discriminate.
      * injection Hx as <-. injection Hh as <-. exact Hvl.
      * eapply IH; eassumption.
    + rewrite encode_engine_input_unfold in Hin. unfold convert in Hin.
      destruct (convert_from Sharing (List.length m) (m, [], 0) hs)
        as [[[m' conv] unc]|] eqn:Hc; [|discriminate].
      apply (convert_from_sharing m) in Hc; [|apply Nat.le_refl].
      destruct Hc as (-> & _ & Hp).
      injection Hin as <-. cbn [fst snd app].
      intros k x h Hx Hh Hnot. rewrite map_map in Hx.
      rewrite nth_error_map, Hh in Hx. simpl in Hx. injection Hx as <-.
      cbn [read_header value snd]. now apply Hp.
Qed.

End MoreProperties.

(* ------------------------------------------------------------------ *)
(** ** The counter wraps *)

Lemma iter_String_length (ch : ascii) (p : positive) :
  forall s, String.length (Pos.iter (String ch) s p)
            = (Pos.to_nat p + String.length s)%nat.
Proof.
  induction p as [|p IH] using Pos.peano_ind; intros s.
  - reflexivity.
  - rewrite Pos.iter_succ, Pos2Nat.inj_succ. cbn [String.length plus].
    now rewrite IH.
Qed.

Lemma size_iter_String (ch : ascii) (p : positive) :
  size (Pos.iter (String ch) EmptyString p) = Z.pos p.
Proof.
  unfold size. rewrite iter_String_length. cbn [String.length].
  rewrite Nat.add_0_r. apply positive_nat_Z.
Qed.

Lemma size_big_value : size Overflow.big_value = 4294967294.
Proof. apply size_iter_String. Qed.

Lemma big_sum :
  uncompressedSum (map (deref Overflow.big_mem) Overflow.big_headers) = 4294967296.
Proof.
  change (map (deref Overflow.big_mem) Overflow.big_headers)
    with [mkHPACKHeader EmptyString Overflow.big_value].
  rewrite uncompressedSum_cons. unfold headerSize. cbn [name value].
  rewrite size_big_value. reflexivity.
Qed.

(** C3, as the claim states it, fails: for a single header with the
    empty name and a value of 2^32 - 2 characters the sum is 2^32, and
    [encode] records 0. *)
Lemma uncompressed_size_overflow :
  valid_headers Overflow.big_mem Overflow.big_headers = true /\
  uncompressedSum (map (deref Overflow.big_mem) Overflow.big_headers)
  = 4294967296 /\
  exists m' c' buf,
    encode (E := FakeEngine.engine) Owning Overflow.big_mem
           (new_HPACKCodec DOWNSTREAM) Overflow.big_headers
    = Some (m', c', buf) /\
    uncompressed (encodedSize_ c') = 0 /\
    uncompressed (encodedSize_ c')
    <> uncompressedSum (map (deref Overflow.big_mem) Overflow.big_headers).
Proof.
  assert (Hv : valid_headers Overflow.big_mem Overflow.big_headers = true)
    by reflexivity.
  split; [exact Hv|]. split; [exact big_sum|].
  destruct (encode_uncompressed (E := FakeEngine.engine) Owning
              Overflow.big_mem (new_HPACKCodec DOWNSTREAM)
              Overflow.big_headers Hv)
    as (m' & c' & buf & He & Hu).
  exists m', c', buf. split; [exact He|].
  rewrite Hu, big_sum.
  change (to_uint32 4294967296) with 0.
  split; [reflexivity|discriminate].
Qed.

Import FakeEngine.

(** The end-to-end example of the specification: names in lower case,
    order and duplicates kept, 18 uncompressed bytes. *)
Example end_to_end :
  map compress.str (headers Run.result1)
  = ["x-test"; "1"; "x-test"; "2"]%string /\
  decode 3 Run.up Run.block0 18 = Some (Run.up1, [], Ok Run.result1) /\
  uncompressed (decodedSize_ Run.up1) = 18.
Proof. repeat split. Qed.

Example too_many_headers :
  exists c', decode 0 Run.up Run.long_block 10
             = Some (c', [], Err HEADERS_TOO_LARGE).
Proof. eexists. reflexivity. Qed.

(** A pointer to none of the caller's strings: the call has no
    outcome. *)
Example encode_faults_on_dangling_pointer :
  valid_headers mem0 Run2.dangling_headers = false /\
  encode Owning mem0 Run.down Run2.dangling_headers = None /\
  encode Sharing mem0 Run.down Run2.dangling_headers = None.
Proof. repeat split. Qed.

(** No buffer from the engine: a return like any other, with a
    compressed size of 0. *)
Example encode_returns_without_buffer :
  encode Owning mem0 Run.down [] = Some (mem0, Run2.down_empty, None) /\
  encodedSize_ Run2.down_empty = mkSize 0 0.
Proof. repeat split. Qed.

(** C5.  When copies share buffers and a header's name and value are one
    string, [encode] hands the engine the value in lower case: for the
    header whose name and value are the string "AbC" the engine receives
    the value "abc".  (With buffers of their own the value handed over is
    "AbC".) *)
Theorem encode_lowercases_aliased_value :
  valid_headers Run2.alias_mem Run2.alias_headers = true /\
  map (deref Run2.alias_mem) Run2.alias_headers
  = [mkHPACKHeader "AbC" "AbC"] /\
  encode_engine_input Sharing Run2.alias_mem Run2.alias_headers
  = Some [mkHPACKHeader "abc" "abc"] /\
  encode_engine_input Owning Run2.alias_mem Run2.alias_headers
  = Some [mkHPACKHeader "abc" "AbC"].
Proof. repeat split. Qed.

(** C9.  When copies share buffers, [encode] overwrites the caller's
    names: for the list [("X-Test","1"), ("x-test","2")] the caller's
    first name reads "x-test" after the call.  (With buffers of their own
    it still reads "X-Test".) *)
Theorem encode_overwrites_caller_name :
  valid_headers mem0 headers0 = true /\
  load mem0 0%nat = "X-Test"%string /\
  encode Sharing mem0 Run.down headers0
  = Some (Run2.mem1_shared, Run2.down1_shared, Some [Run.block0]) /\
  load Run2.mem1_shared 0%nat = "x-test"%string /\
  encode Owning mem0 Run.down headers0
  = Some (Run2.mem1, Run2.down1, Some [Run.block0]) /\
  load Run2.mem1 0%nat = "X-Test"%string.
Proof. repeat split. Qed.

Lemma decode_error_classification_witness :
  hasError (call_decoder (decoder_call Run.up Run.short_block 2)) = true /\
  exists c' cursor' kind,
    decode 0 Run.up Run.short_block 2 = Some (c', cursor', Err kind) /\
    (kind = HEADERS_TOO_LARGE <->
     getError (call_decoder (decoder_call Run.up Run.short_block 2))
     = HPACKDecoder.HEADERS_TOO_LARGE) /\
    (kind = BAD_ENCODING <->
     getError (call_decoder (decoder_call Run.up Run.short_block 2))
     <> HPACKDecoder.HEADERS_TOO_LARGE) /\
    result_headers (Err kind) = None /\
    result_bytesConsumed (Err kind) = None.
Proof.
  split; [reflexivity|].
  apply (decode_error_classification 0 Run.up Run.short_block 2).
  reflexivity.
Defined.

Lemma role_binding_witness :
  run_calls Owning 3 (FakeEngine.mem0, new_HPACKCodec DOWNSTREAM) Run.calls0
  = Some (fst Run.after_calls0, snd Run.after_calls0) /\
  dec_msgType (decoder_ (snd Run.after_calls0))
  = dec_msgType (decoder_ (new_HPACKCodec DOWNSTREAM)) /\
  enc_msgType (encoder_ (snd Run.after_calls0))
  = enc_msgType (encoder_ (new_HPACKCodec DOWNSTREAM)).
Proof.
  split; [reflexivity|].
  apply (proj2 (proj2 (proj2 role_binding))
           Owning DOWNSTREAM 3%nat FakeEngine.mem0 Run.calls0
           (fst Run.after_calls0) (snd Run.after_calls0)).
  reflexivity.
Defined.

Lemma uncompressed_size_accounting_witness :
  (valid_headers FakeEngine.mem0 FakeEngine.headers0 = true /\
   exists m' c' buf,
     encode Owning FakeEngine.mem0 Run.down FakeEngine.headers0
     = Some (m', c', buf) /\
     uncompressed (encodedSize_ c')
     = uncompressedSum (map (deref FakeEngine.mem0) FakeEngine.headers0)
       mod 2 ^ 32 /\
     (uncompressedSum (map (deref FakeEngine.mem0) FakeEngine.headers0)
      < 2 ^ 32 ->
      uncompressed (encodedSize_ c')
      = uncompressedSum (map (deref FakeEngine.mem0) FakeEngine.headers0))) /\
  (decode 3 Run.up Run.block0 18 = Some (Run.up1, [], Ok Run.result1) /\
   (decodedHeaders_ Run.up1
    = call_headers (decoder_call Run.up Run.block0 18) /\
    uncompressed (decodedSize_ Run.up1)
    = uncompressedSum (decodedHeaders_ Run.up1) mod 2 ^ 32 /\
    (uncompressedSum (decodedHeaders_ Run.up1) < 2 ^ 32 ->
     uncompressed (decodedSize_ Run.up1)
     = uncompressedSum (decodedHeaders_ Run.up1)))).
Proof.
  split.
  - split; [reflexivity|].
    apply (proj1 uncompressed_size_accounting
                 Owning FakeEngine.mem0 Run.down FakeEngine.headers0).
    reflexivity.
  - split; [reflexivity|].
    apply (proj1 (proj2 uncompressed_size_accounting)
                 3%nat Run.up Run.block0 18 Run.up1 [] Run.result1).
    reflexivity.
Defined.

Lemma piece_list_shape_witness :
  decode 3 Run.up Run.block0 18 = Some (Run.up1, [], Ok Run.result1) /\
  decodedHeaders_ Run.up1 = call_headers (decoder_call Run.up Run.block0 18) /\
  headers Run.result1 = pieces_of (decodedHeaders_ Run.up1) /\
  List.length (headers Run.result1)
  = (2 * List.length (decodedHeaders_ Run.up1))%nat /\
  (forall k h,
     nth_error (decodedHeaders_ Run.up1) k = Some h ->
     nth_error (headers Run.result1) (2 * k)
     = Some (compress.mkHeaderPiece (name h) (size (name h)) false true) /\
     nth_error (headers Run.result1) (2 * k + 1)
     = Some (compress.mkHeaderPiece (value h) (size (value h)) false true)) /\
  Forall (fun p => compress.multiValued p = true) (headers Run.result1).
Proof.
  split; [reflexivity|].
  apply (piece_list_shape 3 Run.up Run.block0 18 Run.up1 [] Run.result1).
  reflexivity.
Defined.

Lemma decode_reuse_witness :
  decode 3 Run.up Run.block0 18 = Some (Run.up1, [], Ok Run.result1) /\
  decode 3 Run.up1 Run.block2 4 = Some (Run.up2, [], Ok Run.result2) /\
  headers Run.result2
  = pieces_of (call_headers
                 (HPACKDecoder_decode (decoder_ Run.up1) Run.block2 4 [])) /\
  outHeaders_ Run.up2 = headers Run.result2 /\
  decodedHeaders_ Run.up2
  = call_headers (HPACKDecoder_decode (decoder_ Run.up1) Run.block2 4 []) /\
  (forall out decoded,
     decode 3 (with_scratch Run.up1 out decoded) Run.block2 4
     = Some (Run.up2, [], Ok Run.result2)).
Proof.
  split; [reflexivity|]. split; [reflexivity|].
  apply (decode_reuse 3 3 Run.up Run.up1 Run.up2 Run.block0 [] Run.block2 []
                      18 4 (Ok Run.result1) Run.result2);
    reflexivity.
Defined.



Lemma decode_error_keeps_sizes_witness :
  decode 0 Run.up_stats Run.short_block 2
  = Some (Run.up_failed, [], Err BAD_ENCODING) /\
  decodedSize_ Run.up_failed = decodedSize_ Run.up_stats /\
  stats_ Run.up_failed
  = match stats_ Run.up_stats with
    | Some events =>
      Some (events ++ [HeaderCodec.recordDecodeError HeaderCodec.HPACK])
    | None => None
    end.
Proof.
  split; [reflexivity|].
  apply (decode_error_keeps_sizes 0 Run.up_stats Run.short_block 2
                                  Run.up_failed [] BAD_ENCODING).
  reflexivity.
Defined.

Lemma decode_returns_below_limit_witness :
  hasError (call_decoder (decoder_call Run.up Run.block0 18)) = false /\
  Z.of_nat (List.length (call_headers (decoder_call Run.up Run.block0 18)))
  < 2 ^ 32 /\
  (List.length (call_headers (decoder_call Run.up Run.block0 18)) < 3)%nat /\
  exists c' cursor' r,
    decode 3 Run.up Run.block0 18 = Some (c', cursor', Ok r) /\
    forall fuel' ret,
      decode fuel' Run.up Run.block0 18 = Some ret ->
      ret = (c', cursor', Ok r).
Proof.
  split; [reflexivity|]. split; [reflexivity|].
  split; [vm_compute; lia|].
  apply (decode_returns_below_limit 3 Run.up Run.block0 18).
  - reflexivity.
  - reflexivity.
  - vm_compute; lia.
Defined.

Lemma iter_cons_length {A : Type} (x : A) (p : positive) :
  forall l, List.length (Pos.iter (cons x) l p)
            = (Pos.to_nat p + List.length l)%nat.
Proof.
  induction p as [|p IH] using Pos.peano_ind; intros l.
  - reflexivity.
  - rewrite Pos.iter_succ, Pos2Nat.inj_succ. cbn [List.length plus].
    now rewrite IH.
Qed.

Lemma big_codec_headers :
  2 ^ 32
  <= Z.of_nat (List.length
                 (call_headers
                    (decoder_call (E := BigEngine.engine)
                                  Run2.big_codec [] 0))).
Proof.
  change (call_headers (decoder_call (E := BigEngine.engine)
                                     Run2.big_codec [] 0))
    with (Pos.iter (cons (mkHPACKHeader EmptyString EmptyString)) []
                   BigEngine.many).
  rewrite iter_cons_length. cbn [List.length].
  rewrite Nat.add_0_r, positive_nat_Z.
  apply Z.le_refl.
Qed.

Lemma decode_never_returns_at_limit_witness :
  hasError (call_decoder (decoder_call (E := BigEngine.engine)
                                       Run2.big_codec [] 0)) = false /\
  2 ^ 32
  <= Z.of_nat (List.length
                 (call_headers
                    (decoder_call (E := BigEngine.engine)
                                  Run2.big_codec [] 0))) /\
  forall fuel, decode (E := BigEngine.engine) fuel Run2.big_codec [] 0 = None.
Proof.
  split; [reflexivity|]. split; [exact big_codec_headers|].
  apply (decode_never_returns_at_limit (E := BigEngine.engine)
           Run2.big_codec [] 0).
  - reflexivity.
  - exact big_codec_headers.
Defined.

Lemma decode_outcome_follows_engine_witness :
  decode 0 Run.up_stats Run.short_block 2
  = Some (Run.up_failed, [], Err BAD_ENCODING) /\
  hasError (decoder_ Run.up_failed) = true /\
  decoder_ Run.up_failed
  = call_decoder (decoder_call Run.up_stats Run.short_block 2) /\
  [] = call_cursor (decoder_call Run.up_stats Run.short_block 2).
Proof.
  split; [reflexivity|].
  apply (decode_outcome_follows_engine 0 Run.up_stats Run.short_block 2
           Run.up_failed [] (Err BAD_ENCODING)).
  reflexivity.
Defined.

Lemma decode_leaves_its_result_witness :
  decode 0 Run.up1 Run.short_block 2
  = Some (fst (fst (decode_failure Run.up1 Run.short_block 2)), [],
          Err BAD_ENCODING) /\
  outHeaders_ (fst (fst (decode_failure Run.up1 Run.short_block 2))) = [] /\
  decodedHeaders_ (fst (fst (decode_failure Run.up1 Run.short_block 2)))
  = call_headers (HPACKDecoder_decode (decoder_ Run.up1) Run.short_block 2 []) /\
  errorLog (fst (fst (decode_failure Run.up1 Run.short_block 2)))
  = errorLog Run.up1
    ++ [("decoder state: "
         ++ getTable (decoder_ (fst (fst (decode_failure Run.up1
                                            Run.short_block 2)))))%string].
Proof.
  split; [reflexivity|].
  apply (decode_leaves_its_result 0 Run.up1 Run.short_block 2
           (fst (fst (decode_failure Run.up1 Run.short_block 2))) []
           (Err BAD_ENCODING)).
  reflexivity.
Defined.

Lemma pieces_account_for_size_witness :
  decode 3 Run.up Run.block0 18 = Some (Run.up1, [], Ok Run.result1) /\
  Forall (fun p => compress.owner p = false /\
                   compress.len p = size (compress.str p))
         (headers Run.result1) /\
  uncompressed (decodedSize_ Run.up1)
  = (sum_len (headers Run.result1)
     + Z.of_nat (List.length (headers Run.result1))) mod 2 ^ 32.
Proof.
  split; [reflexivity|].
  apply (pieces_account_for_size 3 Run.up Run.block0 18 Run.up1 []
           Run.result1).
  reflexivity.
Defined.


Lemma recorder_gets_one_event_per_call_witness :
  run_calls Owning 3 (FakeEngine.mem0, Run2.down_stats) Run.calls0
  = Some Run2.after_stats /\
  match stats_ (snd (FakeEngine.mem0, Run2.down_stats)) with
  | None => stats_ (snd Run2.after_stats) = None
  | Some events =>
    exists new,
      stats_ (snd Run2.after_stats) = Some (events ++ new) /\
      List.length new = List.length Run.calls0
  end.
Proof.
  split; [reflexivity|].
  apply (recorder_gets_one_event_per_call Owning 3 Run.calls0
           (FakeEngine.mem0, Run2.down_stats) Run2.after_stats).
  reflexivity.
Defined.

Lemma calls_keep_caller_strings_witness :
  run_calls Sharing 3 (FakeEngine.mem0, Run.down) Run.calls0
  = Some Run2.after_calls0_shared /\
  (List.length (fst (FakeEngine.mem0, Run.down))
   <= List.length (fst Run2.after_calls0_shared))%nat /\
  forall p, (p < List.length (fst (FakeEngine.mem0, Run.down)))%nat ->
            load (fst Run2.after_calls0_shared) p
            = load (fst (FakeEngine.mem0, Run.down)) p \/
            load (fst Run2.after_calls0_shared) p
            = ascii_lowercase (load (fst (FakeEngine.mem0, Run.down)) p).
Proof.
  split; [reflexivity|].
  apply (calls_keep_caller_strings Sharing 3 Run.calls0
           (FakeEngine.mem0, Run.down) Run2.after_calls0_shared).
  reflexivity.
Defined.

Lemma reencode_sees_same_headers_witness :
  run_calls Sharing 3 (FakeEngine.mem0, Run.down) Run.calls0
  = Some Run2.after_calls0_shared /\
  valid_headers (fst (FakeEngine.mem0, Run.down)) FakeEngine.headers0 = true /\
  exists input input',
    encode_engine_input Sharing (fst (FakeEngine.mem0, Run.down))
                        FakeEngine.headers0 = Some input /\
    encode_engine_input Sharing (fst Run2.after_calls0_shared)
                        FakeEngine.headers0 = Some input' /\
    map name input' = map name input /\
    map name input
    = map (fun h => ascii_lowercase
                      (load (fst (FakeEngine.mem0, Run.down))
                            (compress.name h)))
          FakeEngine.headers0 /\
    (Sharing = Owning -> input' = input).
Proof.
  split; [reflexivity|]. split; [reflexivity|].
  apply (reencode_sees_same_headers Sharing 3 Run.calls0
           (FakeEngine.mem0, Run.down) Run2.after_calls0_shared
           FakeEngine.headers0);
    reflexivity.
Defined.

Lemma encodes_keep_decode_side_witness :
  forallb is_encode Run2.encodes0 = true /\
  calls_valid (fst (FakeEngine.mem0, Run.up1)) Run2.encodes0 = true /\
  exists st',
    run_calls Owning 0 (FakeEngine.mem0, Run.up1) Run2.encodes0 = Some st' /\
    decoder_ (snd st') = decoder_ (snd (FakeEngine.mem0, Run.up1)) /\
    decodedSize_ (snd st') = decodedSize_ (snd (FakeEngine.mem0, Run.up1)) /\
    outHeaders_ (snd st') = outHeaders_ (snd (FakeEngine.mem0, Run.up1)) /\
    decodedHeaders_ (snd st')
    = decodedHeaders_ (snd (FakeEngine.mem0, Run.up1)) /\
    errorLog (snd st') = errorLog (snd (FakeEngine.mem0, Run.up1)).
Proof.
  split; [reflexivity|]. split; [reflexivity|].
  apply (encodes_keep_decode_side Owning 0 Run2.encodes0
           (FakeEngine.mem0, Run.up1));
    reflexivity.
Defined.

Lemma decodes_keep_encode_side_witness :
  forallb is_decode Run2.decodes0 = true /\
  run_calls Owning 3 (Run2.mem1, Run2.down1) Run2.decodes0
  = Some Run2.after_decodes0 /\
  fst Run2.after_decodes0 = fst (Run2.mem1, Run2.down1) /\
  encoder_ (snd Run2.after_decodes0)
  = encoder_ (snd (Run2.mem1, Run2.down1)) /\
  encodedSize_ (snd Run2.after_decodes0)
  = encodedSize_ (snd (Run2.mem1, Run2.down1)).
Proof.
  split; [reflexivity|]. split; [reflexivity|].
  apply (decodes_keep_encode_side Owning 3 Run2.decodes0
           (Run2.mem1, Run2.down1) Run2.after_decodes0);
    reflexivity.
Defined.

Lemma huffman_and_headroom_stay_witness :
  run_calls Owning 3 (FakeEngine.mem0, new_HPACKCodec DOWNSTREAM) Run.calls0
  = Some (fst Run.after_calls0, snd Run.after_calls0) /\
  enc_huffman (encoder_ (snd Run.after_calls0)) = true /\
  encodeHeadroom_ (snd Run.after_calls0)
  = encodeHeadroom_ (new_HPACKCodec DOWNSTREAM).
Proof.
  split; [reflexivity|].
  apply (huffman_and_headroom_stay Owning DOWNSTREAM 3 FakeEngine.mem0
           (fst Run.after_calls0) Run.calls0 (snd Run.after_calls0)).
  reflexivity.
Defined.

Lemma encode_decode_round_trip_witness :
  valid_headers FakeEngine.mem0 FakeEngine.headers0 = true /\
  encode_engine_input Owning FakeEngine.mem0 FakeEngine.headers0
  = Some Run2.input0 /\
  hasError (call_decoder (decoder_call Run.up Run.block0 18)) = false /\
  call_headers (decoder_call Run.up Run.block0 18) = Run2.input0 /\
  Z.of_nat (List.length FakeEngine.headers0) < 2 ^ 32 /\
  (List.length FakeEngine.headers0 < 3)%nat /\
  exists dec' cursor' r m' enc' buf,
    decode 3 Run.up Run.block0 18 = Some (dec', cursor', Ok r) /\
    encode Owning FakeEngine.mem0 Run.down FakeEngine.headers0
    = Some (m', enc', buf) /\
    map compress.str (headers r)
    = flat_map (fun x => [name x; value x]) Run2.input0 /\
    map name Run2.input0
    = map (fun h => ascii_lowercase (load FakeEngine.mem0 (compress.name h)))
          FakeEngine.headers0 /\
    (Owning = Owning ->
     map value Run2.input0
     = map (fun h => load FakeEngine.mem0 (compress.value h))
           FakeEngine.headers0) /\
    uncompressed (decodedSize_ dec') = uncompressed (encodedSize_ enc').
Proof.
  split; [reflexivity|]. split; [reflexivity|]. split; [reflexivity|].
  split; [reflexivity|]. split; [reflexivity|]. split; [simpl; lia|].
  apply (encode_decode_round_trip Owning 3 FakeEngine.mem0 Run.down Run.up
           FakeEngine.headers0 Run.block0 18 Run2.input0);
    try reflexivity.
  simpl; lia.
Defined.

Lemma engine_sees_lower_case_names_witness :
  valid_headers Run2.mem_lower Run2.headers_lower = true /\
  exists input,
    encode_engine_input Sharing Run2.mem_lower Run2.headers_lower
    = Some input /\
    Forall (fun h => no_upper (name h) = true) input /\
    map (fun h => String.length (name h)) input
    = map (fun h => String.length (load Run2.mem_lower (compress.name h)))
          Run2.headers_lower /\
    (forallb (fun h => no_upper (load Run2.mem_lower (compress.name h)))
             Run2.headers_lower = true ->
     input = map (deref Run2.mem_lower) Run2.headers_lower).
Proof.
  split; [reflexivity|].
  apply (engine_sees_lower_case_names Sharing Run2.mem_lower
                                      Run2.headers_lower).
  reflexivity.
Defined.

Lemma uncompressed_sizes_fit_32_bits_witness :
  (encode Sharing FakeEngine.mem0 Run.down FakeEngine.headers0
   = Some (Run2.mem1_shared, Run2.down1_shared, Some [Run.block0]) /\
   0 <= uncompressed (encodedSize_ Run2.down1_shared) < 2 ^ 32) /\
  (decode 3 Run.up Run.block0 18 = Some (Run.up1, [], Ok Run.result1) /\
   0 <= uncompressed (decodedSize_ Run.up1) < 2 ^ 32).
Proof.
  split.
  - split; [reflexivity|].
    apply (proj1 uncompressed_sizes_fit_32_bits
                 Sharing FakeEngine.mem0 Run.down FakeEngine.headers0
                 Run2.mem1_shared Run2.down1_shared (Some [Run.block0])).
    reflexivity.
  - split; [reflexivity|].
    apply (proj2 uncompressed_sizes_fit_32_bits
                 3%nat Run.up Run.block0 18 Run.up1 [] Run.result1).
    reflexivity.
Defined.

Lemma shared_copies_lowercase_caller_names_witness :
  valid_headers FakeEngine.mem0 FakeEngine.headers0 = true /\
  exists m' c' buf,
    encode Sharing FakeEngine.mem0 Run.down FakeEngine.headers0
    = Some (m', c', buf) /\
    List.length m' = List.length FakeEngine.mem0 /\
    (forall h, In h FakeEngine.headers0 ->
               load m' (compress.name h)
               = ascii_lowercase (load FakeEngine.mem0 (compress.name h))) /\
    (forall p, ~ In p (map compress.name FakeEngine.headers0) ->
               load m' p = load FakeEngine.mem0 p).
Proof.
  split; [reflexivity|].
  apply (shared_copies_lowercase_caller_names FakeEngine.mem0 Run.down
                                              FakeEngine.headers0).
  reflexivity.
Defined.

Lemma engine_is_handed_lowercased_list_witness :
  valid_headers Run2.alias_mem Run2.alias_headers = true /\
  exists input,
    encode_engine_input Sharing Run2.alias_mem Run2.alias_headers
    = Some input /\
    map name input
    = map (fun h => ascii_lowercase (load Run2.alias_mem (compress.name h)))
          Run2.alias_headers /\
    (Sharing = Owning ->
     map value input
     = map (fun h => load Run2.alias_mem (compress.value h))
           Run2.alias_headers) /\
    (forall k x h,
       nth_error input k = Some x ->
       nth_error Run2.alias_headers k = Some h ->
       ~ In (compress.value h) (map compress.name Run2.alias_headers) ->
       value x = load Run2.alias_mem (compress.value h)).
Proof.
  split; [reflexivity|].
  apply (engine_is_handed_lowercased_list Sharing Run2.alias_mem
                                          Run2.alias_headers).
  reflexivity.
Defined.
